(** * eld_log: trip planning under Hours-of-Service rules

    A shallow embedding of [trucking_app/route_api/hos_utils.py] and of the
    planning pipeline of [trucking_app/route_api/views.py]
    ([add_fuel_stops], [apply_hos_regulations], [generate_logs],
    [plan_route]), followed by the properties proved about them.

    Numbers.  The Python code computes on doubles.  The pipeline is
    embedded on exact rationals ([Q]), which is what it computes when no
    operation rounds; the loop of [apply_hos_regulations] is embedded a
    second time on binary64 floats (module [Doubles]), where its runs
    are those of the code, rounding included.  What is proved on
    rationals either does not depend on the arithmetic (names of places,
    kinds and order of segments, the counters a test reads) or is a
    statement over exact arithmetic (sums of miles and of hours, the end
    of the loop); where rounding decides what the code does, the runs
    are evaluated on [Doubles].  Equality of rationals is [==] ([Qeq]);
    Leibniz equality [=] is used where two values are produced by the
    very same computation.  Datetimes are
    integers ([Z]) counting microseconds, the resolution of Python's
    [datetime]. *)

From Stdlib Require Import QArith Qround ZArith List String Lia Lqa Bool.
From Stdlib Require Import Sorted PrimFloat.
Import ListNotations.

Set Implicit Arguments.

(** ** Python comparisons and exceptions *)

(** [x >= y] and [x > y] on numbers, as booleans. *)
Definition Qgeb (x y : Q) : bool := Qle_bool y x.
Definition Qgtb (x y : Q) : bool := negb (Qle_bool x y).

(** The exceptions the modelled code can raise. *)
Inductive exn : Type :=
| ZeroDivisionError
| ValueError (msg : string)
| GeocoderError (msg : string).

(** Outcome of a computation that may raise. *)
Inductive result (A : Type) : Type :=
| Ok (a : A)
| Raised (e : exn).
Arguments Raised {A} e.

Definition bind {A B : Type} (r : result A) (k : A -> result B) : result B :=
  match r with
  | Ok a => k a
  | Raised e => Raised e
  end.

Notation "x <- r ;; k" := (bind r (fun x => k))
  (at level 61, r at next level, right associativity).

(** Python's [x / y] on numbers. *)
Definition py_div (x y : Q) : result Q :=
  if Qeq_bool y 0 then Raised ZeroDivisionError else Ok (x / y)%Q.

(** ** Segments (the dicts of views.py, the rows of [RouteSegment]) *)

Record Segment : Type := mkSegment {
  type : string;
  start_location : string;
  end_location : string;
  distance_miles : Q;
  estimated_drive_time : Q
}.

Definition is_driving (segment : Segment) : bool :=
  (type segment =? "driving")%string.

(** ** views.py: [TripViewSet.add_fuel_stops] *)

Open Scope Q_scope.

Section AddFuelStops.

Open Scope string_scope.

(** f"Fuel Stop ({current_location} to {segment['end_location']})" *)
Definition fuel_stop_name (current_location end_loc : string) : string :=
  "Fuel Stop (" ++ current_location ++ " to " ++ end_loc ++ ")".

(** The inner [while remaining_distance > 1000] loop.  It works on
    [result_segments], [remaining_distance] and [current_location]; the
    model stops with [None] when [fuel] runs out. *)
Fixpoint fuel_while (fuel : nat) (segment : Segment)
    (result_segments : list Segment) (remaining_distance : Q)
    (current_location : string) : option (list Segment * Q * string) :=
  if Qgtb remaining_distance 1000 then
    match fuel with
    | O => None
    | S fuel' =>
        let fuel_stop_location :=
          fuel_stop_name current_location (end_location segment) in
        let result_segments :=
          (result_segments ++
            [mkSegment "driving" current_location fuel_stop_location
                       1000 (1000 / 60)] ++
            [mkSegment "fuel" fuel_stop_location fuel_stop_location
                       0 0.5])%list in
        fuel_while fuel' segment result_segments
                   (remaining_distance - 1000) fuel_stop_location
    end
  else Some (result_segments, remaining_distance, current_location).

(** Iterations the inner loop can need for a leg of the given distance. *)
Definition fuel_bound (distance : Q) : nat :=
  Z.to_nat (Qfloor (distance / 1000)).

(** Body of [for segment in segments]. *)
Definition add_fuel_stops_body (result_segments : list Segment)
    (segment : Segment) : option (list Segment) :=
  if is_driving segment && Qgtb (distance_miles segment) 1000 then
    match fuel_while (fuel_bound (distance_miles segment)) segment
                     result_segments (distance_miles segment)
                     (start_location segment) with
    | None => None
    | Some (result_segments, remaining_distance, current_location) =>
        if Qgtb remaining_distance 0 then
          Some (result_segments ++
                [mkSegment "driving" current_location
                           (end_location segment) remaining_distance
                           (remaining_distance / 60)])%list
        else Some result_segments
    end
  else Some (result_segments ++ [segment])%list.

Fixpoint add_fuel_stops_for (segments result_segments : list Segment)
    : option (list Segment) :=
  match segments with
  | [] => Some result_segments
  | segment :: segments' =>
      match add_fuel_stops_body result_segments segment with
      | None => None
      | Some result_segments' =>
          add_fuel_stops_for segments' result_segments'
      end
  end.

Definition add_fuel_stops (segments : list Segment)
    : option (list Segment) :=
  add_fuel_stops_for segments [].

End AddFuelStops.

(** ** views.py: [TripViewSet.apply_hos_regulations] *)

(** The local variables of the function: the work queue, the output list
    and the four counters. *)
Record HosState : Type := mkHosState {
  segment_queue : list Segment;
  result_segments : list Segment;
  hours_driving : Q;
  hours_duty : Q;
  cycle_hours : Q;
  hours_since_break : Q
}.

Section ApplyHos.

Open Scope string_scope.

(** f"Rest Stop ({segment['start_location']} to {segment['end_location']})" *)
Definition rest_stop_name (segment : Segment) : string :=
  "Rest Stop (" ++ start_location segment ++ " to "
    ++ end_location segment ++ ")".

Definition break_segment (location : string) : Segment :=
  mkSegment "break" location location 0 0.5.

Definition rest_segment (location : string) : Segment :=
  mkSegment "rest" location location 0 10.

(** One iteration of [while segment_queue], after
    [segment = segment_queue.pop(0)] left [queue]. *)
Definition hos_body (s : HosState) (segment : Segment)
    (queue : list Segment) : result HosState :=
  let d := estimated_drive_time segment in
  if is_driving segment then
    if Qgeb (hours_since_break s) 8 then
      Ok (mkHosState
            (segment :: queue)
            (result_segments s ++ [break_segment (start_location segment)])
            (hours_driving s)
            (hours_duty s + 0.5)
            (cycle_hours s + 0.5)
            0)
    else
      let remaining_drive_time := 11 - hours_driving s in
      if Qgtb d remaining_drive_time then
        fraction <- py_div remaining_drive_time d ;;
        let partial_distance := fraction * distance_miles segment in
        let partial_location := rest_stop_name segment in
        let remaining_distance :=
          distance_miles segment - partial_distance in
        let remaining_time := d - remaining_drive_time in
        Ok (mkHosState
              (mkSegment "driving" partial_location (end_location segment)
                         remaining_distance remaining_time :: queue)
              (result_segments s ++
                 [mkSegment "driving" (start_location segment)
                            partial_location partial_distance
                            remaining_drive_time] ++
                 [rest_segment partial_location])
              0
              0
              (cycle_hours s + remaining_drive_time)
              0)
      else if Qgtb (hours_duty s + d) 14 then
        Ok (mkHosState
              (segment :: queue)
              (result_segments s ++ [rest_segment (start_location segment)])
              0
              0
              (cycle_hours s)
              0)
      else
        Ok (mkHosState
              queue
              (result_segments s ++ [segment])
              (hours_driving s + d)
              (hours_duty s + d)
              (cycle_hours s + d)
              (hours_since_break s + d))
  else if (type segment =? "rest") || (type segment =? "break") then
    if Qgeb d 10 then
      Ok (mkHosState queue (result_segments s ++ [segment])
                     0 0 (cycle_hours s) 0)
    else if Qgeb d 0.5 then
      Ok (mkHosState queue (result_segments s ++ [segment])
                     (hours_driving s) (hours_duty s + d)
                     (cycle_hours s + d) 0)
    else
      Ok (mkHosState queue (result_segments s ++ [segment])
                     (hours_driving s) (hours_duty s + d)
                     (cycle_hours s + d) (hours_since_break s))
  else
    Ok (mkHosState queue (result_segments s ++ [segment])
                   (hours_driving s) (hours_duty s + d)
                   (cycle_hours s + d) (hours_since_break s)).

(** The [while segment_queue] loop; [None] when [fuel] runs out. *)
Fixpoint hos_while (fuel : nat) (s : HosState)
    : option (result HosState) :=
  match segment_queue s with
  | [] => Some (Ok s)
  | segment :: queue =>
      match fuel with
      | O => None
      | S fuel' =>
          match hos_body s segment queue with
          | Ok s' => hos_while fuel' s'
          | Raised e => Some (Raised e)
          end
      end
  end.

Definition hos_init (segments : list Segment) (current_hours_used : Q)
    : HosState :=
  mkHosState segments [] 0 0 current_hours_used 0.

(** Weight of a queued leg: a driving leg of duration [d] is split at
    most [floor (d / 11)] times from a fresh duty period, and causes at
    most one inserted break, one early split or rest, and its own
    emission. *)
Definition splits (d : Q) : nat := Z.to_nat (Qfloor (d / 11)).

Definition leg_weight (segment : Segment) : nat :=
  if is_driving segment
  then 4 + splits (estimated_drive_time segment)
  else 2.

Definition queue_weight (queue : list Segment) : nat :=
  list_sum (map leg_weight queue).

Definition break_due (s : HosState) : nat :=
  if Qgeb (hours_since_break s) 8 then 2%nat else 0%nat.

Definition period_used (s : HosState) : nat :=
  if Qeq_bool (hours_driving s) 0 && Qeq_bool (hours_duty s) 0
  then 0%nat else 1%nat.

Definition hos_measure (s : HosState) : nat :=
  (queue_weight (segment_queue s) + break_due s + period_used s)%nat.

(** The function with the loop run on [fuel] iterations at most. *)
Definition apply_hos_regulations_fuel (fuel : nat)
    (segments : list Segment) (current_hours_used : Q)
    : option (result (list Segment)) :=
  match hos_while fuel (hos_init segments current_hours_used) with
  | None => None
  | Some (Ok s) => Some (Ok (result_segments s))
  | Some (Raised e) => Some (Raised e)
  end.

(** The function itself: the weight of the input queue is fuel enough
    ([apply_hos_regulations_returns] below). *)
Definition apply_hos_regulations (segments : list Segment)
    (current_hours_used : Q) : option (result (list Segment)) :=
  apply_hos_regulations_fuel (queue_weight segments)
                             segments current_hours_used.

End ApplyHos.

(** ** views.py: [TripViewSet.apply_hos_regulations], on doubles *)

(** The same function with the numbers the code has: every distance,
    duration and counter is a binary64 float, and each operation rounds
    as Python's does. *)
Module Doubles.

Local Open Scope float_scope.

(** [x >= y], [x > y] and [x / y] on floats. *)
Definition geb (x y : float) : bool := PrimFloat.leb y x.
Definition gtb (x y : float) : bool := PrimFloat.ltb y x.

Definition py_div (x y : float) : result float :=
  if PrimFloat.eqb y 0 then Raised ZeroDivisionError else Ok (x / y).

Record Segment : Type := mkSegment {
  type : string;
  start_location : string;
  end_location : string;
  distance_miles : float;
  estimated_drive_time : float
}.

Definition is_driving (segment : Segment) : bool :=
  (type segment =? "driving")%string.

Record HosState : Type := mkHosState {
  segment_queue : list Segment;
  result_segments : list Segment;
  hours_driving : float;
  hours_duty : float;
  cycle_hours : float;
  hours_since_break : float
}.

Definition rest_stop_name (segment : Segment) : string :=
  ("Rest Stop (" ++ start_location segment ++ " to "
     ++ end_location segment ++ ")")%string.

Definition break_segment (location : string) : Segment :=
  mkSegment "break" location location 0 0.5.

Definition rest_segment (location : string) : Segment :=
  mkSegment "rest" location location 0 10.

(** One iteration of [while segment_queue], after
    [segment = segment_queue.pop(0)] left [queue]. *)
Definition hos_body (s : HosState) (segment : Segment)
    (queue : list Segment) : result HosState :=
  let d := estimated_drive_time segment in
  if is_driving segment then
    if geb (hours_since_break s) 8 then
      Ok (mkHosState
            (segment :: queue)
            (result_segments s ++ [break_segment (start_location segment)])
            (hours_driving s)
            (hours_duty s + 0.5)
            (cycle_hours s + 0.5)
            0)
    else
      let remaining_drive_time := 11 - hours_driving s in
      if gtb d remaining_drive_time then
        fraction <- py_div remaining_drive_time d ;;
        let partial_distance := fraction * distance_miles segment in
        let partial_location := rest_stop_name segment in
        let remaining_distance :=
          distance_miles segment - partial_distance in
        let remaining_time := d - remaining_drive_time in
        Ok (mkHosState
              (mkSegment "driving" partial_location (end_location segment)
                         remaining_distance remaining_time :: queue)
              (result_segments s ++
                 [mkSegment "driving" (start_location segment)
                            partial_location partial_distance
                            remaining_drive_time] ++
                 [rest_segment partial_location])
              0
              0
              (cycle_hours s + remaining_drive_time)
              0)
      else if gtb (hours_duty s + d) 14 then
        Ok (mkHosState
              (segment :: queue)
              (result_segments s ++ [rest_segment (start_location segment)])
              0
              0
              (cycle_hours s)
              0)
      else
        Ok (mkHosState
              queue
              (result_segments s ++ [segment])
              (hours_driving s + d)
              (hours_duty s + d)
              (cycle_hours s + d)
              (hours_since_break s + d))
  else if ((type segment =? "rest") || (type segment =? "break"))%string then
    if geb d 10 then
      Ok (mkHosState queue (result_segments s ++ [segment])
                     0 0 (cycle_hours s) 0)
    else if geb d 0.5 then
      Ok (mkHosState queue (result_segments s ++ [segment])
                     (hours_driving s) (hours_duty s + d)
                     (cycle_hours s + d) 0)
    else
      Ok (mkHosState queue (result_segments s ++ [segment])
                     (hours_driving s) (hours_duty s + d)
                     (cycle_hours s + d) (hours_since_break s))
  else
    Ok (mkHosState queue (result_segments s ++ [segment])
                   (hours_driving s) (hours_duty s + d)
                   (cycle_hours s + d) (hours_since_break s)).

(** The [while segment_queue] loop; [None] when [fuel] runs out. *)
Fixpoint hos_while (fuel : nat) (s : HosState)
    : option (result HosState) :=
  match segment_queue s with
  | [] => Some (Ok s)
  | segment :: queue =>
      match fuel with
      | O => None
      | S fuel' =>
          match hos_body s segment queue with
          | Ok s' => hos_while fuel' s'
          | Raised e => Some (Raised e)
          end
      end
  end.

(** The function with the loop run on [fuel] iterations at most. *)
Definition apply_hos_regulations (fuel : nat) (segments : list Segment)
    (current_hours_used : float) : option (result (list Segment)) :=
  match hos_while fuel (mkHosState segments [] 0 0 current_hours_used 0)
  with
  | None => None
  | Some (Ok s) => Some (Ok (result_segments s))
  | Some (Raised e) => Some (Raised e)
  end.

End Doubles.

(** ** hos_utils.py: [HOSCalculator] *)

Module HOSCalculator.

Record t : Type := mk {
  current_hours_used : Q;
  driving_hours_left : Q;
  duty_window_left : Q;
  cycle_hours_left : Q;
  time_since_last_break : Q
}.

(** [HOSCalculator.__init__] *)
Definition __init__ (current_hours_used : Q) : t :=
  mk current_hours_used
     (11 - current_hours_used)
     (14 - current_hours_used)
     (70 - current_hours_used)
     0.

Definition can_drive (self : t) (hours : Q) : bool :=
  if Qle_bool hours 0 then true
  else if Qle_bool (driving_hours_left self) 0
          || Qle_bool (duty_window_left self) 0 then false
  else if Qgeb (time_since_last_break self) 8 then false
  else Qle_bool hours (driving_hours_left self).

(** The dict returned by [add_driving_time]. *)
Record DrivingStatus : Type := mkDrivingStatus {
  ds_driving_hours_left : Q;
  ds_duty_window_left : Q;
  ds_cycle_hours_left : Q;
  ds_break_needed : bool
}.

Definition add_driving_time (self : t) (hours : Q)
    : result (t * DrivingStatus) :=
  if negb (can_drive self hours) then
    Raised (ValueError
      "Cannot drive for the specified hours under HOS regulations")
  else
    let self' :=
      mk (current_hours_used self)
         (driving_hours_left self - hours)
         (duty_window_left self - hours)
         (cycle_hours_left self - hours)
         (time_since_last_break self + hours) in
    Ok (self',
        mkDrivingStatus (driving_hours_left self')
                        (duty_window_left self')
                        (cycle_hours_left self')
                        (Qgeb (time_since_last_break self') 8)).

(** The dict returned by [add_on_duty_time]. *)
Record DutyStatus : Type := mkDutyStatus {
  os_driving_hours_left : Q;
  os_duty_window_left : Q;
  os_cycle_hours_left : Q
}.

Definition add_on_duty_time (self : t) (hours : Q)
    : result (t * DutyStatus) :=
  if Qle_bool (duty_window_left self) 0 then
    Raised (ValueError "14-hour duty window expired")
  else
    let self' :=
      mk (current_hours_used self)
         (driving_hours_left self)
         (duty_window_left self - hours)
         (cycle_hours_left self - hours)
         (time_since_last_break self) in
    Ok (self',
        mkDutyStatus (driving_hours_left self')
                     (duty_window_left self')
                     (cycle_hours_left self')).

Definition take_break (self : t) (hours : Q) : t :=
  let self1 :=
    if Qgeb hours 0.5
    then mk (current_hours_used self) (driving_hours_left self)
            (duty_window_left self) (cycle_hours_left self) 0
    else self in
  if Qgeb hours 10
  then mk (current_hours_used self1) 11 14
          (cycle_hours_left self1) (time_since_last_break self1)
  else self1.

(** *** [HOSCalculator.plan_route] *)

(** The dicts [plan_route] reads, by the keys it reads; a key that is
    absent is [None]. *)
Record SegmentDict : Type := mkSegmentDict {
  segment_type : option string;
  distance_miles : option Q;
  estimated_drive_time : option Q;
  start_location : option string
}.

(** An element of [planned_segments]: an input dict, or a dict built by
    [plan_route] with the keys [segment_type], [distance_miles],
    [estimated_drive_time] and [location]. *)
Inductive Planned : Type :=
| Kept (segment : SegmentDict)
| Inserted (kind : string) (miles hours : Q) (location : string).

(** What [plan_route] can raise: a [KeyError] of its own, or the
    exception of a transition it calls. *)
Inductive raised : Type :=
| KeyError (key : string)
| Propagated (e : exn).

Inductive outcome (A : Type) : Type :=
| Returned (a : A)
| Failed (e : raised).
Arguments Failed {A} e.

(** One iteration of [while current_segment < len(segments)] on
    [segment = segments[current_segment]]. *)
Definition plan_route_body (self : t) (planned_segments : list Planned)
    (current_segment : nat) (segment : SegmentDict)
    : outcome (t * list Planned * nat) :=
  match segment_type segment with
  | None => Failed (KeyError "segment_type")
  | Some kind =>
      if (kind =? "driving")%string then
        match distance_miles segment with
        | None => Failed (KeyError "distance_miles")
        | Some miles =>
            let drive_hours := miles / 60 in
            if can_drive self drive_hours then
              match add_driving_time self drive_hours with
              | Raised e => Failed (Propagated e)
              | Ok (self', _) =>
                  Returned (self', planned_segments ++ [Kept segment],
                            S current_segment)
              end
            else if Qgeb (time_since_last_break self) 8
                    && Qgtb (driving_hours_left self) 0 then
              match start_location segment with
              | None => Failed (KeyError "start_location")
              | Some location =>
                  Returned (take_break self 0.5,
                            planned_segments
                              ++ [Inserted "break" 0 0.5 location],
                            current_segment)
              end
            else
              match start_location segment with
              | None => Failed (KeyError "start_location")
              | Some location =>
                  Returned (take_break self 10,
                            planned_segments
                              ++ [Inserted "rest" 0 10 location],
                            current_segment)
              end
        end
      else
        match estimated_drive_time segment with
        | None => Failed (KeyError "estimated_drive_time")
        | Some hours =>
            if ((kind =? "rest") || (kind =? "break"))%string then
              Returned (take_break self hours,
                        planned_segments ++ [Kept segment],
                        S current_segment)
            else
              match add_on_duty_time self hours with
              | Raised e => Failed (Propagated e)
              | Ok (self', _) =>
                  Returned (self', planned_segments ++ [Kept segment],
                            S current_segment)
              end
        end
  end.

(** The loop from a given state; [None] when [fuel] runs out. *)
Fixpoint plan_route_from (fuel : nat) (segments : list SegmentDict)
    (self : t) (planned_segments : list Planned) (current_segment : nat)
    : option (outcome (t * list Planned)) :=
  match nth_error segments current_segment with
  | None => Some (Returned (self, planned_segments))
  | Some segment =>
      match fuel with
      | O => None
      | S fuel' =>
          match plan_route_body self planned_segments current_segment
                                segment with
          | Failed e => Some (Failed e)
          | Returned (self', planned_segments', current_segment') =>
              plan_route_from fuel' segments self' planned_segments'
                              current_segment'
          end
      end
  end.

(** [plan_route]: the tracker after the call and the returned list. *)
Definition plan_route (fuel : nat) (self : t) (segments : list SegmentDict)
    : option (outcome (t * list Planned)) :=
  plan_route_from fuel segments self [] 0.

End HOSCalculator.

(** ** views.py: [TripViewSet.generate_logs] *)

Open Scope Z_scope.

(** A [datetime] is a number of microseconds counted from a midnight; a
    [date] is a day number and a [time] a number of microseconds since
    the midnight of its day. *)
Definition usec_per_second : Z := 1000000.
Definition usec_per_hour : Z := 3600 * usec_per_second.
Definition usec_per_day : Z := 24 * usec_per_hour.

(** [dt.date()], [dt.time()] and [datetime.combine(d, t)]. *)
Definition date_of (dt : Z) : Z := dt / usec_per_day.
Definition time_of (dt : Z) : Z := dt mod usec_per_day.
Definition combine (d t : Z) : Z := d * usec_per_day + t.

(** [dt.replace(minute=0, second=0, microsecond=0)] *)
Definition truncate_to_hour (dt : Z) : Z := dt - dt mod usec_per_hour.

(** Rounding to the nearest integer, ties to even, as [timedelta] rounds
    to microseconds. *)
Definition round_half_even (q : Q) : Z :=
  let f := Qfloor q in
  match Qcompare (q - inject_Z f) (1 # 2) with
  | Lt => f
  | Gt => f + 1
  | Eq => if Z.even f then f else f + 1
  end.

(** [timedelta(hours=h)], in microseconds. *)
Definition timedelta_hours (h : Q) : Z :=
  round_half_even (h * inject_Z usec_per_hour).

(** [datetime.min.time()] is 00:00:00; 23:59:59 is the time of a midnight
    minus one second. *)
Definition min_time : Z := 0.
Definition last_second : Z := usec_per_day - usec_per_second.

Record LogEntry : Type := mkLogEntry {
  date : Z;
  status : string;
  start_time : Z;
  end_time : Z;
  location : string
}.

Section GenerateLogs.

Open Scope string_scope.

(** The [mapping] dict of [segment_type_to_status]. *)
Definition mapping : list (string * string) :=
  [ ("driving", "driving");
    ("rest", "off_duty");
    ("pickup", "on_duty_not_driving");
    ("dropoff", "on_duty_not_driving");
    ("fuel", "on_duty_not_driving");
    ("break", "off_duty") ].

Fixpoint dict_get (m : list (string * string)) (key default : string)
    : string :=
  match m with
  | [] => default
  | (k, v) :: m' => if (k =? key) then v else dict_get m' key default
  end.

Definition segment_type_to_status (segment_type : string) : string :=
  dict_get mapping segment_type "on_duty_not_driving".

(** [for _ in range(remaining_days)]: one entry per full day. *)
Fixpoint full_days (remaining_days : nat) (current_date : Z)
    (status location : string) : list LogEntry :=
  match remaining_days with
  | O => []
  | S n =>
      let next_midnight := combine (current_date + 1) min_time in
      let next_midnight_minus_1sec := next_midnight - usec_per_second in
      mkLogEntry current_date status min_time
                 (time_of next_midnight_minus_1sec) location
      :: full_days n (current_date + 1) status location
  end.

(** Body of [for segment in segments]: the entries created for one
    segment that starts at [current_datetime], and the next
    [current_datetime]. *)
Definition segment_logs (segment : Segment) (current_datetime : Z)
    : list LogEntry * Z :=
  let status := segment_type_to_status (type segment) in
  let start_datetime := current_datetime in
  let end_datetime :=
    start_datetime + timedelta_hours (estimated_drive_time segment) in
  if (date_of start_datetime =? date_of end_datetime)%Z then
    ([mkLogEntry (date_of start_datetime) status
                 (time_of start_datetime) (time_of end_datetime)
                 (start_location segment)],
     end_datetime)
  else
    let midnight := combine (date_of start_datetime + 1) min_time in
    let midnight_minus_1sec := midnight - usec_per_second in
    let first :=
      mkLogEntry (date_of start_datetime) status
                 (time_of start_datetime) (time_of midnight_minus_1sec)
                 (start_location segment) in
    let current_date := date_of start_datetime + 1 in
    let remaining_days := date_of end_datetime - current_date in
    let final :=
      mkLogEntry (date_of end_datetime) status min_time
                 (time_of end_datetime) (start_location segment) in
    ((first :: full_days (Z.to_nat remaining_days) current_date status
                         (start_location segment)) ++ [final],
     end_datetime)%list.

(** The loop over the segments, from [current_datetime] on; the entries
    are listed in the order of their creation. *)
Fixpoint generate_logs_from (segments : list Segment)
    (current_datetime : Z) : list LogEntry :=
  match segments with
  | [] => []
  | segment :: segments' =>
      let '(entries, end_datetime) :=
        segment_logs segment current_datetime in
      (entries ++ generate_logs_from segments' end_datetime)%list
  end.

(** [generate_logs]: [segments] are the trip's [RouteSegment] rows by id
    and [now] is the value of [datetime.now()]. *)
Definition generate_logs (segments : list Segment) (now : Z)
    : list LogEntry :=
  generate_logs_from segments (truncate_to_hour now).

(** [order_by('date', 'start_time')] of the [logs] action, as a stable
    insertion sort: entries with equal keys stay in creation order. *)
Definition log_key_le (a b : LogEntry) : bool :=
  ((date a <? date b)
   || ((date a =? date b) && (start_time a <=? start_time b)))%Z.

Fixpoint insert_log (a : LogEntry) (l : list LogEntry) : list LogEntry :=
  match l with
  | [] => [a]
  | b :: l' => if log_key_le a b then a :: l else b :: insert_log a l'
  end.

Definition logs (entries : list LogEntry) : list LogEntry :=
  fold_right insert_log [] entries.

End GenerateLogs.

(** ** views.py: [TripViewSet.plan_route] *)

Record Trip : Type := mkTrip {
  current_location : string;
  pickup_location : string;
  dropoff_location : string;
  current_hours_used : Q
}.

(** The rows of one trip, by id. *)
Record Database : Type := mkDatabase {
  route_segments : list Segment;
  log_entries : list LogEntry
}.

Inductive Response : Type :=
| Response200 (status_message : string)
| Response400 (error : string).

(** A geocoded place. *)
Record Location : Type := mkLocation {
  latitude : Q;
  longitude : Q
}.

Section PlanRoute.

Open Scope string_scope.
Open Scope Q_scope.

(** The collaborators: [geolocator.geocode], which raises, finds nothing
    or finds a place, [geopy.distance.distance(a, b).miles] and [str(e)]
    for an exception. *)
Variable geocode : string -> result (option Location).
Variable distance : Location -> Location -> Q.
Variable str : exn -> string.

(** Lines 48-86: the four initial segments. *)
Definition initial_segments (trip : Trip)
    (current_to_pickup pickup_to_dropoff : Q) : list Segment :=
  [ mkSegment "driving" (current_location trip) (pickup_location trip)
              current_to_pickup (current_to_pickup / 60);
    mkSegment "pickup" (pickup_location trip) (pickup_location trip) 0 1;
    mkSegment "driving" (pickup_location trip) (dropoff_location trip)
              pickup_to_dropoff (pickup_to_dropoff / 60);
    mkSegment "dropoff" (dropoff_location trip) (dropoff_location trip)
              0 1 ].

(** The [try] block; [None] only when a loop of the model runs out of
    fuel.  [Ok (inl r)] is an early [return r]. *)
Definition plan_route_try (trip : Trip) (now : Z)
    : option (result (Response + Database)) :=
  match geocode (current_location trip) with
  | Raised e => Some (Raised e)
  | Ok current =>
  match geocode (pickup_location trip) with
  | Raised e => Some (Raised e)
  | Ok pickup =>
  match geocode (dropoff_location trip) with
  | Raised e => Some (Raised e)
  | Ok dropoff =>
  match current, pickup, dropoff with
  | Some current, Some pickup, Some dropoff =>
      let current_to_pickup := distance current pickup in
      let pickup_to_dropoff := distance pickup dropoff in
      match add_fuel_stops
              (initial_segments trip current_to_pickup pickup_to_dropoff)
      with
      | None => None
      | Some segments =>
          match apply_hos_regulations segments (current_hours_used trip)
          with
          | None => None
          | Some (Raised e) => Some (Raised e)
          | Some (Ok processed_segments) =>
              Some (Ok (inr (mkDatabase
                               processed_segments
                               (generate_logs processed_segments now))))
          end
      end
  | _, _, _ =>
      Some (Ok (inl (Response400
                       "Could not geocode one or more locations")))
  end end end end.

(** [plan_route]: the rows of the trip are deleted first; an exception
    of the [try] block becomes a 400 response. *)
Definition plan_route (trip : Trip) (db : Database) (now : Z)
    : option (Response * Database) :=
  let cleared := mkDatabase [] [] in
  match plan_route_try trip now with
  | None => None
  | Some (Raised e) => Some (Response400 (str e), cleared)
  | Some (Ok (inl response)) => Some (response, cleared)
  | Some (Ok (inr db')) =>
      Some (Response200 "Route planned successfully", db')
  end.

End PlanRoute.

(** * Vocabulary of the properties *)

(** ** Fuel stops *)

Section FuelStopVocabulary.

Open Scope Q_scope.

(** Miles driven in a list of segments. *)
Definition driving_miles (l : list Segment) : Q :=
  fold_right
    (fun s acc => if is_driving s then distance_miles s + acc else acc)
    0 l.

(** A driving segment is at most one tank (1000 miles) long. *)
Definition within_tank (s : Segment) : Prop :=
  is_driving s = true -> distance_miles s <= 1000.

(** What [add_fuel_stops] owes to one input leg. *)
Definition leg_expansion (segment : Segment) (out : list Segment) : Prop :=
  (is_driving segment = true ->
     driving_miles out == distance_miles segment)
  /\ Forall within_tank out
  /\ (is_driving segment = false \/ distance_miles segment <= 1000 ->
        out = [segment]).

End FuelStopVocabulary.

(** ** The regulation loop *)

(** Counters read off an emitted sequence: hours driven and hours on duty
    since the last rest of ten hours or more, and hours since the last
    break of half an hour or more. *)
Record Tally : Type := mkTally {
  driven : Q;
  on_duty : Q;
  since_break : Q
}.

Section HosVocabulary.

Open Scope Q_scope.

(** The driving counter never passes the 11-hour limit. *)
Definition driving_capped (s : HosState) : Prop := hours_driving s <= 11.

(** The states the loop passes through from [s0]. *)
Inductive reachable (s0 : HosState) : HosState -> Prop :=
| reach_start : reachable s0 s0
| reach_step (s : HosState) (segment : Segment) (queue : list Segment)
             (s' : HosState) :
    reachable s0 s ->
    segment_queue s = segment :: queue ->
    hos_body s segment queue = Ok s' ->
    reachable s0 s'.

(** Two states that differ at most in [cycle_hours]. *)
Definition same_but_cycle (s1 s2 : HosState) : Prop :=
  segment_queue s1 = segment_queue s2
  /\ result_segments s1 = result_segments s2
  /\ hours_driving s1 = hours_driving s2
  /\ hours_duty s1 = hours_duty s2
  /\ hours_since_break s1 = hours_since_break s2.

Definition same_outcome (r1 r2 : result HosState) : Prop :=
  match r1, r2 with
  | Ok s1, Ok s2 => same_but_cycle s1 s2
  | Raised e1, Raised e2 => e1 = e2
  | _, _ => False
  end.

Definition tally_step (t : Tally) (segment : Segment) : Tally :=
  let d := estimated_drive_time segment in
  if is_driving segment then
    mkTally (driven t + d) (on_duty t + d) (since_break t + d)
  else if ((type segment =? "rest") || (type segment =? "break"))%string
  then
    if Qgeb d 10 then mkTally 0 0 0
    else if Qgeb d 0.5 then mkTally (driven t) (on_duty t + d) 0
    else mkTally (driven t) (on_duty t + d) (since_break t)
  else mkTally (driven t) (on_duty t + d) (since_break t).

Definition tally (out : list Segment) : Tally :=
  fold_left tally_step out (mkTally 0 0 0).

(** The limits as the specification words them: every driving segment
    lasts at most 11 hours and leaves at most 11 hours driven, 14 hours
    on duty and 8 hours since the last break. *)
Definition within_all_limits (out : list Segment) : Prop :=
  forall pre segment post,
    out = pre ++ segment :: post -> is_driving segment = true ->
    estimated_drive_time segment <= 11
    /\ driven (tally (pre ++ [segment])) <= 11
    /\ on_duty (tally (pre ++ [segment])) <= 14
    /\ since_break (tally (pre ++ [segment])) <= 8.

Definition nonneg_duration (segment : Segment) : Prop :=
  0 <= estimated_drive_time segment.

End HosVocabulary.

(** [n] iterations of the loop from [s]; [None] when the queue is empty
    before that or an iteration raises. *)
Fixpoint hos_iter (n : nat) (s : HosState) : option HosState :=
  match n with
  | O => Some s
  | S n' =>
      match segment_queue s with
      | [] => None
      | segment :: queue =>
          match hos_body s segment queue with
          | Ok s' => hos_iter n' s'
          | Raised _ => None
          end
      end
  end.

(** Legs used as concrete inputs: 700, 600, 660 and 60 miles at 60 mph. *)
Definition leg_700 : Segment := mkSegment "driving" "Depot" "Dock" 700 (700 / 60).
Definition leg_600 : Segment := mkSegment "driving" "Depot" "Dock" 600 10.
Definition leg_660 : Segment := mkSegment "driving" "Depot" "Dock" 660 11.
Definition leg_60 : Segment := mkSegment "driving" "Dock" "Yard" 60 1.

(** Ten hours of loading, and a leg of 12 hours. *)
Definition loading_10 : Segment := mkSegment "pickup" "Dock" "Dock" 0 10.
Definition leg_720 : Segment := mkSegment "driving" "Dock" "Yard" 720 12.

Section DoubleInputs.

Open Scope float_scope.

(** The same legs on doubles. *)
Definition double_600 : Doubles.Segment :=
  Doubles.mkSegment "driving" "Depot" "Dock" 600 10.
Definition double_660 : Doubles.Segment :=
  Doubles.mkSegment "driving" "Depot" "Dock" 660 11.
Definition double_60 : Doubles.Segment :=
  Doubles.mkSegment "driving" "Dock" "Yard" 60 1.
Definition double_loading_10 : Doubles.Segment :=
  Doubles.mkSegment "pickup" "Dock" "Dock" 0 10.
Definition double_720 : Doubles.Segment :=
  Doubles.mkSegment "driving" "Dock" "Yard" 720 12.







(** Two states of the loop on doubles that differ at most in
    [cycle_hours], and two outcomes that do. *)
Definition doubles_same_but_cycle (s1 s2 : Doubles.HosState) : Prop :=
  Doubles.segment_queue s1 = Doubles.segment_queue s2
  /\ Doubles.result_segments s1 = Doubles.result_segments s2
  /\ Doubles.hours_driving s1 = Doubles.hours_driving s2
  /\ Doubles.hours_duty s1 = Doubles.hours_duty s2
  /\ Doubles.hours_since_break s1 = Doubles.hours_since_break s2.

Definition doubles_same_outcome (r1 r2 : result Doubles.HosState) : Prop :=
  match r1, r2 with
  | Ok s1, Ok s2 => doubles_same_but_cycle s1 s2
  | Raised e1, Raised e2 => e1 = e2
  | _, _ => False
  end.

End DoubleInputs.

(** ** The log partitioner *)

Section LogVocabulary.

Open Scope Z_scope.

(** Both times of an entry lie within its day. *)
Definition in_day (r : LogEntry) : Prop :=
  0 <= start_time r < usec_per_day /\ 0 <= end_time r < usec_per_day.

(** An entry does not end before it starts. *)
Definition forward (r : LogEntry) : Prop := start_time r <= end_time r.

(** [b] takes over where [a] ends: at the same instant of the same
    date, or at 00:00:00 of the next date when [a] ends at 23:59:59. *)
Definition adjacent (a b : LogEntry) : Prop :=
  (date b = date a /\ start_time b = end_time a)
  \/ (date b = date a + 1 /\ end_time a = last_second
      /\ start_time b = min_time).

(** Tiling as the specification words it. *)
Definition tiles (entries : list LogEntry) : Prop :=
  Forall forward entries /\ Sorted adjacent entries.

(** The instant at which an entry ends. *)
Definition end_instant (r : LogEntry) : Z := combine (date r) (end_time r).

(** Sum of the segments' durations, as [timedelta]s. *)
Definition total_timedelta (segments : list Segment) : Z :=
  fold_right (fun seg acc => timedelta_hours (estimated_drive_time seg) + acc)
             0 segments.

(** The duration is a whole number of seconds. *)
Definition whole_seconds (segment : Segment) : Prop :=
  timedelta_hours (estimated_drive_time segment) mod usec_per_second = 0.

(** [r] is followed by an entry of date [d] starting at [t]. *)
Definition next_of (r : LogEntry) (d t : Z) : Prop :=
  (d = date r /\ t = end_time r /\ start_time r <= end_time r)
  \/ (d = date r + 1 /\ end_time r = last_second /\ t = min_time).

(** [path p entries q]: the entries lead, each followed by the next,
    from date and time [p] to date and time [q]. *)
Inductive path : Z * Z -> list LogEntry -> Z * Z -> Prop :=
| path_last (r : LogEntry) :
    start_time r <= end_time r ->
    path (date r, start_time r) [r] (date r, end_time r)
| path_next (r : LogEntry) (l : list LogEntry) (d t : Z) (q : Z * Z) :
    path (d, t) l q ->
    next_of r d t ->
    path (date r, start_time r) (r :: l) q.

End LogVocabulary.

(** Inputs used as concrete cases: a rest of 2 hours less 1/16384 hour
    (7199.780273 seconds), an hour at the dock, a rest of four hours and a
    leg of no length. *)
Definition short_rest : Segment :=
  mkSegment "rest" "Yard" "Yard" 0 (32767 # 16384).
Definition dock_hour : Segment := mkSegment "pickup" "Dock" "Dock" 0 1.
Definition four_hour_rest : Segment := mkSegment "rest" "Yard" "Yard" 0 4.
Definition still_leg : Segment := mkSegment "driving" "Depot" "Depot" 0 0.

(** 22:00 and five microseconds on day 0. *)
Definition ten_pm : Z := 22 * usec_per_hour + 5.

(** ** The planning entry point *)

(** Collaborators used as a concrete case: every place is found, and any
    two places are 120 miles apart. *)
Definition found_everywhere (name : string) : result (option Location) :=
  Ok (Some (mkLocation 0 0)).
Definition miles_120 (a b : Location) : Q := 120.
Definition exn_name (e : exn) : string :=
  match e with
  | ZeroDivisionError => "float division by zero"
  | ValueError msg => msg
  | GeocoderError msg => msg
  end.

Section PlanRouteVocabulary.

(** The three places of the trip are found. *)
Definition geocoded (geocode : string -> result (option Location))
    (trip : Trip) : Prop :=
  exists current pickup dropoff,
    geocode (current_location trip) = Ok (Some current)
    /\ geocode (pickup_location trip) = Ok (Some pickup)
    /\ geocode (dropoff_location trip) = Ok (Some dropoff).

(** The request is turned down and nothing is stored. *)
Definition rejected (outcome : option (Response * Database)) : Prop :=
  exists msg, outcome = Some (Response400 msg, mkDatabase [] []).

End PlanRouteVocabulary.

(** ** Routes, totals and statuses *)

Section RouteVocabulary.

Open Scope Q_scope.

(** Each segment of [l] starts where the one before it ends, the first
    one at [place]. *)
Fixpoint linked_from (place : string) (l : list Segment) : Prop :=
  match l with
  | [] => True
  | segment :: l' =>
      start_location segment = place
      /\ linked_from (end_location segment) l'
  end.

(** Where [l] ends when it starts at [place]. *)
Definition route_end (place : string) (l : list Segment) : string :=
  fold_left (fun _ segment => end_location segment) l place.

(** [l] leads from [a] to [b] without a jump. *)
Definition route (a : string) (l : list Segment) (b : string) : Prop :=
  linked_from a l /\ route_end a l = b.

(** Hours driven in a list of segments. *)
Definition driving_hours (l : list Segment) : Q :=
  fold_right
    (fun s acc => if is_driving s then estimated_drive_time s + acc else acc)
    0 l.

(** The statuses [segment_type_to_status] can give. *)
Definition emitted_status (st : string) : Prop :=
  st = "driving"%string \/ st = "off_duty"%string
  \/ st = "on_duty_not_driving"%string.

(** The input dicts among the planned ones, in order. *)
Definition kept (planned : list HOSCalculator.Planned)
    : list HOSCalculator.SegmentDict :=
  flat_map (fun p => match p with
                     | HOSCalculator.Kept segment => [segment]
                     | HOSCalculator.Inserted _ _ _ _ => []
                     end) planned.

(** A dict [HOSCalculator.plan_route] can handle: a driving leg with its
    distance, of at most 11 hours at 60 mph, and its start location, or
    another segment with its duration. *)
Definition plannable (segment : HOSCalculator.SegmentDict) : Prop :=
  match HOSCalculator.segment_type segment with
  | None => False
  | Some kind =>
      if (kind =? "driving")%string then
        exists miles place,
          HOSCalculator.distance_miles segment = Some miles
          /\ miles / 60 <= 11
          /\ HOSCalculator.start_location segment = Some place
      else
        exists hours,
          HOSCalculator.estimated_drive_time segment = Some hours
  end.

(** What a run that ends has produced. *)
Definition settled (segments : list HOSCalculator.SegmentDict)
    (planned : list HOSCalculator.Planned) (i : nat)
    (r : HOSCalculator.outcome
           (HOSCalculator.t * list HOSCalculator.Planned)) : Prop :=
  match r with
  | HOSCalculator.Returned (_, planned') =>
      kept planned' = kept planned ++ skipn i segments
  | HOSCalculator.Failed e =>
      e = HOSCalculator.Propagated (ValueError "14-hour duty window expired")
  end.

(** Fuel stops in a list of segments, and the stops a leg of the given
    distance needs: one short of the number of tanks. *)
Definition fuel_stops (l : list Segment) : nat :=
  List.length (filter (fun s => (type s =? "fuel")%string) l).

Definition stops_needed (distance : Q) : nat :=
  Z.to_nat (Qceiling (distance / 1000) - 1).

End RouteVocabulary.

(** * Properties *)

(** ** Python comparisons *)

Lemma Qgeb_true (x y : Q) : Qgeb x y = true <-> (y <= x)%Q.
Proof. unfold Qgeb. apply Qle_bool_iff. Qed.

Lemma Qgeb_false (x y : Q) : Qgeb x y = false <-> (x < y)%Q.
Proof.
  unfold Qgeb. split; intro H.
  - apply Qnot_le_lt. intro L. apply Qle_bool_iff in L. congruence.
  - destruct (Qle_bool y x) eqn:E; trivial.
    apply Qle_bool_iff in E. exfalso. exact (Qlt_not_le _ _ H E).
Qed.

Lemma Qgtb_true (x y : Q) : Qgtb x y = true <-> (y < x)%Q.
Proof.
  unfold Qgtb. split; intro H.
  - apply Qnot_le_lt. intro L. apply Qle_bool_iff in L.
    rewrite L in H. discriminate.
  - destruct (Qle_bool x y) eqn:E; trivial.
    apply Qle_bool_iff in E. exfalso. exact (Qlt_not_le _ _ H E).
Qed.

Lemma Qgtb_false (x y : Q) : Qgtb x y = false <-> (x <= y)%Q.
Proof.
  unfold Qgtb. rewrite negb_false_iff. apply Qle_bool_iff.
Qed.

(** ** Rational arithmetic used by the loops *)

Section Floor.

Open Scope Q_scope.

Lemma Qfloor_unique (x : Q) (z : Z) :
  inject_Z z <= x -> x < inject_Z (z + 1) -> Qfloor x = z.
Proof.
  intros Hlo Hhi.
  assert (H1 : (Qfloor x < z + 1)%Z).
  { rewrite Zlt_Qlt. eapply Qle_lt_trans; [apply Qfloor_le | exact Hhi]. }
  assert (H2 : (z < Qfloor x + 1)%Z).
  { rewrite Zlt_Qlt. eapply Qle_lt_trans; [exact Hlo | apply Qlt_floor]. }
  lia.
Qed.

Lemma Qfloor_pred (x : Q) : Qfloor (x - 1) = (Qfloor x - 1)%Z.
Proof.
  apply Qfloor_unique.
  - pose proof (Qfloor_le x) as H.
    unfold Z.sub. rewrite inject_Z_plus, inject_Z_opp.
    change (inject_Z 1) with 1. lra.
  - pose proof (Qlt_floor x) as H.
    replace (Qfloor x - 1 + 1)%Z with (Qfloor x) by lia.
    rewrite inject_Z_plus in H. change (inject_Z 1) with 1 in H. lra.
Qed.

Lemma Qfloor_pos (x : Q) : 1 <= x -> (1 <= Qfloor x)%Z.
Proof.
  intro H. change 1%Z with (Qfloor (inject_Z 1)) at 1.
  apply Qfloor_resp_le. exact H.
Qed.

(** Subtracting one unit [u] from a quantity above [u] lowers the number
    of whole units by one. *)
Lemma units_pred (u x : Q) :
  0 < u -> u < x ->
  Z.to_nat (Qfloor (x / u)) = S (Z.to_nat (Qfloor ((x - u) / u))).
Proof.
  intros Hu Hx.
  assert (E : (x - u) / u == x / u - 1) by (field; lra).
  rewrite (Qfloor_comp _ _ E), Qfloor_pred.
  assert (1 <= x / u).
  { apply Qle_shift_div_l; lra. }
  pose proof (Qfloor_pos H). lia.
Qed.

Lemma units_mono (u x y : Q) :
  0 < u -> x <= y ->
  (Z.to_nat (Qfloor (x / u)) <= Z.to_nat (Qfloor (y / u)))%nat.
Proof.
  intros Hu Hxy.
  assert (H : (Qfloor (x / u) <= Qfloor (y / u))%Z).
  { apply Qfloor_resp_le. unfold Qdiv.
    apply Qmult_le_compat_r; [exact Hxy|].
    apply Qlt_le_weak, Qinv_lt_0_compat, Hu. }
  lia.
Qed.

End Floor.

(** ** Fuel stops *)

Section FuelStopProofs.

Open Scope Q_scope.

Lemma driving_miles_app (l1 l2 : list Segment) :
  driving_miles (l1 ++ l2) == driving_miles l1 + driving_miles l2.
Proof.
  induction l1 as [|s l1 IH]; simpl.
  - lra.
  - destruct (is_driving s); rewrite IH; lra.
Qed.

Lemma fuel_bound_step (rem : Q) :
  1000 < rem -> fuel_bound rem = S (fuel_bound (rem - 1000)).
Proof. intro H. unfold fuel_bound. apply units_pred; lra. Qed.

Lemma fuel_while_unfold fuel segment res rem loc :
  fuel_while fuel segment res rem loc =
  if Qgtb rem 1000 then
    match fuel with
    | O => None
    | S fuel' =>
        let stop := fuel_stop_name loc (end_location segment) in
        fuel_while fuel' segment
          (res ++ [mkSegment "driving" loc stop 1000 (1000 / 60)]
               ++ [mkSegment "fuel" stop stop 0 0.5])
          (rem - 1000) stop
    end
  else Some (res, rem, loc).
Proof. destruct fuel; reflexivity. Qed.

Lemma fuel_while_spec (fuel : nat) :
  forall segment res rem loc,
    (fuel_bound rem <= fuel)%nat ->
    exists out rem' loc',
      fuel_while fuel segment res rem loc = Some (res ++ out, rem', loc')
      /\ rem' <= 1000
      /\ (1000 < rem -> 0 < rem')
      /\ driving_miles out + rem' == rem
      /\ Forall within_tank out.
Proof.
  induction fuel as [|fuel IH]; intros segment res rem loc Hfuel;
    rewrite fuel_while_unfold; destruct (Qgtb rem 1000) eqn:E.
  - apply Qgtb_true in E. rewrite (fuel_bound_step E) in Hfuel. lia.
  - apply Qgtb_false in E. exists [], rem, loc.
    rewrite app_nil_r. repeat split; simpl; try lra. constructor.
  - apply Qgtb_true in E. rewrite (fuel_bound_step E) in Hfuel.
    cbv zeta.
    set (stop := fuel_stop_name loc (end_location segment)).
    destruct (IH segment
                 (res ++ [mkSegment "driving" loc stop 1000 (1000 / 60)]
                      ++ [mkSegment "fuel" stop stop 0 0.5])
                 (rem - 1000) stop)
      as (out & rem' & loc' & Hrun & Hle & Hpos & Hsum & Hcap);
      [lia|].
    exists (mkSegment "driving" loc stop 1000 (1000 / 60)
            :: mkSegment "fuel" stop stop 0 0.5 :: out), rem', loc'.
    rewrite Hrun, <- !app_assoc. simpl.
    repeat split; try assumption.
    + intros _. destruct (Qlt_le_dec 1000 (rem - 1000)) as [L|L].
      * auto.
      * (* the loop stopped at once *)
        rewrite fuel_while_unfold in Hrun.
        apply Qgtb_false in L. rewrite L in Hrun.
        injection Hrun as _ Hrem _. subst rem'. lra.
    + lra.
    + constructor; [unfold within_tank; simpl; lra|].
      constructor; [unfold within_tank; simpl; discriminate|assumption].
  - apply Qgtb_false in E. exists [], rem, loc.
    rewrite app_nil_r. repeat split; simpl; try lra. constructor.
Qed.

Lemma add_fuel_stops_body_spec (res : list Segment) (segment : Segment) :
  exists out,
    add_fuel_stops_body res segment = Some (res ++ out)
    /\ leg_expansion segment out.
Proof.
  unfold add_fuel_stops_body.
  destruct (is_driving segment) eqn:Hd; simpl.
  - destruct (Qgtb (distance_miles segment) 1000) eqn:E.
    + apply Qgtb_true in E.
      destruct (@fuel_while_spec _ segment res (distance_miles segment)
                  (start_location segment) (Nat.le_refl _))
        as (out & rem' & loc' & Hrun & Hle & Hpos & Hsum & Hcap).
      rewrite Hrun. specialize (Hpos E).
      apply Qgtb_true in Hpos. rewrite Hpos.
      exists (out ++ [mkSegment "driving" loc' (end_location segment)
                                rem' (rem' / 60)]).
      rewrite app_assoc. split; [reflexivity|].
      repeat split.
      * intros _. rewrite driving_miles_app. simpl. lra.
      * apply Forall_app. split; [assumption|].
        constructor; [unfold within_tank; simpl; auto | constructor].
      * intros [F|L]; [congruence | lra].
    + apply Qgtb_false in E. exists [segment].
      split; [reflexivity|]. repeat split.
      * intros _. simpl. rewrite Hd. lra.
      * constructor; [intros _; exact E | constructor].
  - exists [segment]. split; [reflexivity|]. repeat split.
    + congruence.
    + constructor; [unfold within_tank; congruence | constructor].
Qed.

Lemma add_fuel_stops_for_spec (segments : list Segment) :
  forall res,
    exists outs,
      add_fuel_stops_for segments res = Some (res ++ List.concat outs)
      /\ Forall2 leg_expansion segments outs.
Proof.
  induction segments as [|segment segments IH]; intro res; simpl.
  - exists []. simpl. rewrite app_nil_r. split; [reflexivity|constructor].
  - destruct (add_fuel_stops_body_spec res segment) as (out & Hb & Hexp).
    rewrite Hb.
    destruct (IH (res ++ out)) as (outs & Hfor & Hall).
    exists (out :: outs). simpl. rewrite Hfor, app_assoc.
    split; [reflexivity|]. constructor; assumption.
Qed.

(** C6: [add_fuel_stops] returns, its output is the concatenation of one
    expansion per input leg, and in it the driving distances of a driving
    leg add up to the leg's distance, no driving segment is longer than
    1000 miles, and a leg that is not driving or not longer than 1000
    miles is passed as it is. *)
Theorem add_fuel_stops_preserves_legs (segments : list Segment) :
  exists outs,
    add_fuel_stops segments = Some (List.concat outs)
    /\ Forall2 leg_expansion segments outs
    /\ Forall within_tank (List.concat outs).
Proof.
  destruct (add_fuel_stops_for_spec segments []) as (outs & Hrun & Hall).
  exists outs. split; [exact Hrun|]. split; [exact Hall|].
  clear Hrun. induction Hall as [|segment out segments outs Hexp _ IH].
  - constructor.
  - simpl. apply Forall_app. split; [apply Hexp | exact IH].
Qed.

Lemma add_fuel_stops_preserves_fuel (segments : list Segment) :
  exists out, add_fuel_stops segments = Some out.
Proof.
  destruct (add_fuel_stops_for_spec segments []) as (outs & Hrun & _).
  eexists. exact Hrun.
Qed.

End FuelStopProofs.

(** ** The regulation loop: termination *)

Section HosTermination.

Open Scope Q_scope.

Lemma splits_step (d : Q) : 11 < d -> splits d = S (splits (d - 11)).
Proof. intro H. unfold splits. apply units_pred; lra. Qed.

Lemma splits_mono (d d' : Q) : d' <= d -> (splits d' <= splits d)%nat.
Proof. intro H. unfold splits. apply units_mono; [lra | exact H]. Qed.

Lemma splits_comp (d d' : Q) : d == d' -> splits d = splits d'.
Proof.
  intro H. unfold splits. f_equal. apply Qfloor_comp.
  rewrite H. reflexivity.
Qed.

Lemma py_div_ok (x y : Q) : ~ y == 0 -> py_div x y = Ok (x / y).
Proof.
  intro H. unfold py_div.
  destruct (Qeq_bool y 0) eqn:E; [|reflexivity].
  apply Qeq_bool_iff in E. contradiction.
Qed.

Lemma period_used_le (s : HosState) : (period_used s <= 1)%nat.
Proof.
  unfold period_used.
  destruct (Qeq_bool (hours_driving s) 0 && Qeq_bool (hours_duty s) 0); lia.
Qed.

Lemma break_due_le (s : HosState) : (break_due s <= 2)%nat.
Proof. unfold break_due. destruct (Qgeb (hours_since_break s) 8); lia. Qed.

(** When the duty period has been used, or else [hours_driving] is 0. *)
Lemma period_used_cases (s : HosState) :
  period_used s = 1%nat
  \/ (period_used s = 0%nat
      /\ hours_driving s == 0 /\ hours_duty s == 0).
Proof.
  unfold period_used.
  destruct (Qeq_bool (hours_driving s) 0) eqn:E1; [|left; reflexivity].
  destruct (Qeq_bool (hours_duty s) 0) eqn:E2; [|left; reflexivity].
  right. apply Qeq_bool_iff in E1, E2. auto.
Qed.

Lemma queue_weight_cons (segment : Segment) (queue : list Segment) :
  queue_weight (segment :: queue)
  = (leg_weight segment + queue_weight queue)%nat.
Proof. reflexivity. Qed.

Lemma measure_fresh q r c :
  hos_measure (mkHosState q r 0 0 c 0) = queue_weight q.
Proof. unfold hos_measure, break_due, period_used. simpl. lia. Qed.

Lemma measure_after_break q r hd duty c :
  (hos_measure (mkHosState q r hd duty c 0) <= queue_weight q + 1)%nat.
Proof.
  unfold hos_measure, break_due. simpl.
  match goal with |- context [period_used ?x] =>
    pose proof (period_used_le x) end.
  lia.
Qed.

Lemma measure_same_break s q r hd duty c :
  (hos_measure (mkHosState q r hd duty c (hours_since_break s))
   <= queue_weight q + break_due s + 1)%nat.
Proof.
  unfold hos_measure. simpl segment_queue.
  match goal with |- context [period_used ?x] =>
    pose proof (period_used_le x) end.
  change (break_due (mkHosState q r hd duty c (hours_since_break s)))
    with (break_due s).
  lia.
Qed.

Lemma measure_bound (s : HosState) :
  (hos_measure s <= queue_weight (segment_queue s) + 3)%nat.
Proof.
  unfold hos_measure.
  pose proof (period_used_le s). pose proof (break_due_le s). lia.
Qed.

(** One iteration does not raise, keeps the cap and lowers the measure. *)
Lemma hos_body_progress (s : HosState) (segment : Segment)
    (queue : list Segment) :
  driving_capped s ->
  segment_queue s = segment :: queue ->
  exists s',
    hos_body s segment queue = Ok s'
    /\ driving_capped s'
    /\ (hos_measure s' < hos_measure s)%nat.
Proof.
  intros Hcap Hq.
  assert (HM : hos_measure s
               = (leg_weight segment + queue_weight queue
                  + break_due s + period_used s)%nat).
  { unfold hos_measure. rewrite Hq, queue_weight_cons. reflexivity. }
  rewrite HM. clear HM.
  unfold driving_capped in *.
  unfold hos_body.
  destruct (is_driving segment) eqn:Hd.
  - destruct (Qgeb (hours_since_break s) 8) eqn:Hb.
    + (* a break is inserted *)
      eexists. split; [reflexivity|]. split; [exact Hcap|].
      match goal with |- (hos_measure (mkHosState ?q ?r ?h ?d ?c 0) < _)%nat
        => pose proof (measure_after_break q r h d c) as Hm end.
      rewrite queue_weight_cons in Hm.
      unfold break_due. rewrite Hb. lia.
    + destruct (Qgtb (estimated_drive_time segment)
                     (11 - hours_driving s)) eqn:Hs.
      * (* the leg is split *)
        apply Qgtb_true in Hs.
        rewrite py_div_ok by (intro Z0; rewrite Z0 in Hs; lra).
        eexists. split; [reflexivity|].
        split; [simpl; lra|].
        rewrite measure_fresh, queue_weight_cons.
        unfold leg_weight. rewrite Hd.
        match goal with |- context [is_driving ?x] =>
          change (is_driving x) with true end.
        cbv iota. simpl estimated_drive_time.
        destruct (period_used_cases s) as [U|(U & H0 & _)].
        -- assert (splits (estimated_drive_time segment
                           - (11 - hours_driving s))
                   <= splits (estimated_drive_time segment))%nat
             by (apply splits_mono; lra).
           lia.
        -- rewrite (@splits_comp
                      (estimated_drive_time segment
                       - (11 - hours_driving s))
                      (estimated_drive_time segment - 11))
             by (rewrite H0; ring).
           rewrite (@splits_step (estimated_drive_time segment))
             by (rewrite H0 in Hs; lra).
           lia.
      * apply Qgtb_false in Hs.
        destruct (Qgtb (hours_duty s + estimated_drive_time segment) 14)
          eqn:Hw.
        -- (* a rest is inserted *)
           apply Qgtb_true in Hw.
           eexists. split; [reflexivity|].
           split; [simpl; lra|].
           rewrite measure_fresh, queue_weight_cons.
           destruct (period_used_cases s) as [U|(U & H0 & H1)];
             [lia|].
           rewrite H0 in Hs. rewrite H1 in Hw. lra.
        -- (* the leg is emitted *)
           eexists. split; [reflexivity|].
           split; [simpl; lra|].
           match goal with |- (hos_measure ?x < _)%nat =>
             pose proof (measure_bound x) as Hm end.
           simpl segment_queue in Hm.
           unfold leg_weight. rewrite Hd. lia.
  - assert (Hw : leg_weight segment = 2%nat)
      by (unfold leg_weight; rewrite Hd; reflexivity).
    rewrite Hw.
    destruct ((type segment =? "rest")%string
              || (type segment =? "break")%string).
    + destruct (Qgeb (estimated_drive_time segment) 10) eqn:H10.
      * eexists. split; [reflexivity|].
        split; [simpl; lra|].
        rewrite measure_fresh. lia.
      * destruct (Qgeb (estimated_drive_time segment) 0.5).
        -- eexists. split; [reflexivity|]. split; [exact Hcap|].
           match goal with
           | |- (hos_measure (mkHosState ?q ?r ?h ?d ?c 0) < _)%nat =>
               pose proof (measure_after_break q r h d c) end.
           lia.
        -- eexists. split; [reflexivity|]. split; [exact Hcap|].
           match goal with
           | |- (hos_measure (mkHosState ?q ?r ?h ?d ?c _) < _)%nat =>
               pose proof (measure_same_break s q r h d c) end.
           lia.
    + eexists. split; [reflexivity|]. split; [exact Hcap|].
      match goal with
      | |- (hos_measure (mkHosState ?q ?r ?h ?d ?c _) < _)%nat =>
          pose proof (measure_same_break s q r h d c) end.
      lia.
Qed.

Lemma leg_weight_pos (segment : Segment) : (0 < leg_weight segment)%nat.
Proof. unfold leg_weight. destruct (is_driving segment); lia. Qed.

(** With fuel for the measure, the loop ends on an empty queue. *)
Lemma hos_while_terminates (fuel : nat) :
  forall s,
    driving_capped s ->
    (hos_measure s <= fuel)%nat ->
    exists s',
      hos_while fuel s = Some (Ok s') /\ segment_queue s' = [].
Proof.
  induction fuel as [|fuel IH]; intros s Hcap Hm.
  - destruct (segment_queue s) as [|segment queue] eqn:Hq.
    + exists s. simpl. rewrite Hq. auto.
    + exfalso. unfold hos_measure in Hm. rewrite Hq in Hm.
      unfold queue_weight in Hm. simpl in Hm.
      pose proof (leg_weight_pos segment). lia.
  - destruct (segment_queue s) as [|segment queue] eqn:Hq.
    + exists s. simpl. rewrite Hq. auto.
    + destruct (hos_body_progress Hcap Hq) as (s1 & Hb & Hcap1 & Hlt).
      simpl. rewrite Hq, Hb. apply IH; [exact Hcap1 | lia].
Qed.


(** A property kept by every iteration holds when the loop ends. *)
Lemma hos_while_invariant (P : HosState -> Prop) :
  (forall s segment queue s',
      P s -> segment_queue s = segment :: queue ->
      hos_body s segment queue = Ok s' -> P s') ->
  forall fuel s s',
    P s -> hos_while fuel s = Some (Ok s') -> P s'.
Proof.
  intros Hstep fuel.
  induction fuel as [|fuel IH]; intros s s' HP Hrun; simpl in Hrun;
    destruct (segment_queue s) as [|segment queue] eqn:Hq;
    try congruence.
  destruct (hos_body s segment queue) as [s1|e] eqn:Hb; [|congruence].
  apply IH with (s := s1); [|exact Hrun].
  eapply Hstep; eassumption.
Qed.

Lemma hos_init_measure (segments : list Segment) (current_hours_used : Q) :
  hos_measure (hos_init segments current_hours_used)
  = queue_weight segments.
Proof. unfold hos_measure, break_due, period_used. simpl. lia. Qed.

(** [apply_hos_regulations] returns the output of a completed run. *)
Lemma apply_hos_regulations_returns (segments : list Segment)
    (current_hours_used : Q) :
  exists s',
    hos_while (queue_weight segments)
              (hos_init segments current_hours_used) = Some (Ok s')
    /\ segment_queue s' = []
    /\ apply_hos_regulations segments current_hours_used
       = Some (Ok (result_segments s')).
Proof.
  destruct (@hos_while_terminates (queue_weight segments)
              (hos_init segments current_hours_used))
    as (s' & Hrun & Hq).
  - unfold driving_capped. simpl. lra.
  - rewrite hos_init_measure. lia.
  - exists s'. split; [exact Hrun|]. split; [exact Hq|].
    unfold apply_hos_regulations, apply_hos_regulations_fuel.
    rewrite Hrun. reflexivity.
Qed.

End HosTermination.

(** ** The regulation loop: reachable states and the cycle counter *)

Section HosStates.

Open Scope Q_scope.

Lemma reachable_invariant (P : HosState -> Prop) (s0 : HosState) :
  (forall s segment queue s',
      P s -> segment_queue s = segment :: queue ->
      hos_body s segment queue = Ok s' -> P s') ->
  P s0 -> forall s, reachable s0 s -> P s.
Proof.
  intros Hstep H0 s Hr. induction Hr; [exact H0|].
  eapply Hstep; eassumption.
Qed.

Lemma driving_capped_step s segment queue s' :
  driving_capped s -> segment_queue s = segment :: queue ->
  hos_body s segment queue = Ok s' -> driving_capped s'.
Proof.
  intros Hcap Hq Hb.
  destruct (hos_body_progress Hcap Hq) as (s1 & Hb1 & Hcap1 & _).
  congruence.
Qed.

Lemma reachable_capped (segments : list Segment) (current_hours_used : Q)
    (s : HosState) :
  reachable (hos_init segments current_hours_used) s -> driving_capped s.
Proof.
  apply reachable_invariant with (P := driving_capped).
  - exact driving_capped_step.
  - unfold driving_capped. simpl. lra.
Qed.

Lemma hos_body_cycle s1 s2 segment queue :
  same_but_cycle s1 s2 ->
  same_outcome (hos_body s1 segment queue) (hos_body s2 segment queue).
Proof.
  destruct s1 as [q1 r1 hd1 du1 c1 b1], s2 as [q2 r2 hd2 du2 c2 b2].
  unfold same_but_cycle. simpl.
  intros (-> & -> & -> & -> & ->).
  unfold hos_body, py_div, bind. simpl.
  repeat match goal with
         | |- context [if ?b then _ else _] => destruct b
         end;
    simpl; unfold same_but_cycle; simpl; auto 6.
Qed.

Lemma hos_while_cycle (fuel : nat) :
  forall s1 s2,
    same_but_cycle s1 s2 ->
    match hos_while fuel s1, hos_while fuel s2 with
    | Some r1, Some r2 => same_outcome r1 r2
    | None, None => True
    | _, _ => False
    end.
Proof.
  induction fuel as [|fuel IH]; intros s1 s2 Hs;
    pose proof Hs as (Hq & _); simpl; rewrite <- Hq;
    destruct (segment_queue s1) as [|segment queue]; simpl; trivial.
  pose proof (hos_body_cycle segment queue Hs) as Hb.
  destruct (hos_body s1 segment queue) as [s1'|e1],
           (hos_body s2 segment queue) as [s2'|e2];
    simpl in Hb; try contradiction.
  - apply IH. exact Hb.
  - exact Hb.
Qed.

End HosStates.

(** ** The regulation loop: main results *)

Section HosClaims.

Open Scope Q_scope.

Lemma hos_iter_reachable (n : nat) :
  forall s0 s s', reachable s0 s -> hos_iter n s = Some s' ->
                  reachable s0 s'.
Proof.
  induction n as [|n IH]; intros s0 s s' Hr Hit; simpl in Hit.
  - injection Hit as <-. exact Hr.
  - destruct (segment_queue s) as [|segment queue] eqn:Hq; [discriminate|].
    destruct (hos_body s segment queue) as [s1|e] eqn:Hb; [|discriminate].
    apply IH with (s := s1); [|exact Hit].
    eapply reach_step; eassumption.
Qed.

(** The split iteration, spelled out. *)
Lemma split_step (s : HosState) (segment : Segment)
    (queue : list Segment) :
  driving_capped s ->
  is_driving segment = true ->
  hours_since_break s < 8 ->
  11 - hours_driving s < estimated_drive_time segment ->
  0 < estimated_drive_time segment
  /\ hos_body s segment queue =
     Ok (mkHosState
           (mkSegment "driving" (rest_stop_name segment)
              (end_location segment)
              (distance_miles segment
               - (11 - hours_driving s) / estimated_drive_time segment
                 * distance_miles segment)
              (estimated_drive_time segment - (11 - hours_driving s))
            :: queue)
           (result_segments s ++
              [mkSegment "driving" (start_location segment)
                 (rest_stop_name segment)
                 ((11 - hours_driving s) / estimated_drive_time segment
                  * distance_miles segment)
                 (11 - hours_driving s);
               rest_segment (rest_stop_name segment)])
           0 0
           (cycle_hours s + (11 - hours_driving s))
           0).
Proof.
  intros Hcap Hd Hb Hs. unfold driving_capped in Hcap.
  split; [lra|].
  unfold hos_body. rewrite Hd.
  apply Qgeb_false in Hb. rewrite Hb.
  pose proof Hs as Hs'. apply Qgtb_true in Hs'. rewrite Hs'.
  rewrite py_div_ok by (intro Z0; rewrite Z0 in Hs; lra).
  reflexivity.
Qed.












(** C9: the output of [apply_hos_regulations] is the same list for any
    two starting values of [current_hours_used], and
    [HOSCalculator.can_drive] does not read [cycle_hours_left]. *)
Theorem cycle_seed_irrelevant (segments : list Segment) (a b : Q) :
  (exists out,
      apply_hos_regulations segments a = Some (Ok out)
      /\ apply_hos_regulations segments b = Some (Ok out))
  /\ forall used driving duty cycle cycle' since hours,
       HOSCalculator.can_drive
         (HOSCalculator.mk used driving duty cycle since) hours
       = HOSCalculator.can_drive
           (HOSCalculator.mk used driving duty cycle' since) hours.
Proof.
  split; [|reflexivity].
  destruct (apply_hos_regulations_returns segments a)
    as (sa & Hra & _ & Ha).
  destruct (apply_hos_regulations_returns segments b)
    as (sb & Hrb & _ & Hb).
  exists (result_segments sa). split; [exact Ha|].
  rewrite Hb. do 2 f_equal.
  assert (Hsame : same_but_cycle (hos_init segments a)
                                 (hos_init segments b))
    by (unfold same_but_cycle; simpl; auto).
  pose proof (hos_while_cycle (queue_weight segments) Hsame) as H.
  rewrite Hra, Hrb in H. simpl in H.
  destruct H as (_ & Hres & _). symmetry. exact Hres.
Qed.

(** C7: when the loop splits a driving leg at [r = 11 - hours_driving],
    the emitted part has distance [(r / duration) * distance] and
    duration [r], the requeued remainder has the rest of the distance
    and of the duration, and both sums give back the leg. *)
Theorem split_conserves_leg (segments : list Segment)
    (current_hours_used : Q) (s : HosState) (segment : Segment)
    (queue : list Segment) :
  reachable (hos_init segments current_hours_used) s ->
  segment_queue s = segment :: queue ->
  is_driving segment = true ->
  hours_since_break s < 8 ->
  11 - hours_driving s < estimated_drive_time segment ->
  exists part remainder s',
    hos_body s segment queue = Ok s'
    /\ result_segments s'
       = result_segments s
         ++ [part; rest_segment (rest_stop_name segment)]
    /\ segment_queue s' = remainder :: queue
    /\ is_driving part = true /\ is_driving remainder = true
    /\ distance_miles part
       = (11 - hours_driving s) / estimated_drive_time segment
         * distance_miles segment
    /\ estimated_drive_time part = 11 - hours_driving s
    /\ distance_miles remainder
       = distance_miles segment - distance_miles part
    /\ estimated_drive_time remainder
       = estimated_drive_time segment - (11 - hours_driving s)
    /\ distance_miles part + distance_miles remainder
       == distance_miles segment
    /\ estimated_drive_time part + estimated_drive_time remainder
       == estimated_drive_time segment.
Proof.
  intros Hr Hq Hd Hb Hs.
  destruct (@split_step s segment queue (reachable_capped Hr) Hd Hb Hs)
    as (_ & Hbody).
  do 3 eexists. split; [exact Hbody|].
  cbn [result_segments segment_queue distance_miles estimated_drive_time].
  repeat (split; [reflexivity|]).
  split; cbn [distance_miles estimated_drive_time]; ring.
Qed.

Lemma split_conserves_leg_witness :
  exists part remainder s',
    hos_body (hos_init [leg_700] 0) leg_700 [] = Ok s'
    /\ result_segments s' = [part; rest_segment (rest_stop_name leg_700)]
    /\ segment_queue s' = [remainder]
    /\ distance_miles part + distance_miles remainder == 700
    /\ estimated_drive_time part + estimated_drive_time remainder
       == 700 / 60.
Proof.
  destruct (@split_conserves_leg [leg_700] 0 (hos_init [leg_700] 0)
              leg_700 [])
    as (part & remainder & s' & Hb & Hres & Hq & _ & _ & _ & _ & _ & _
        & Hdist & Htime).
  - apply reach_start.
  - reflexivity.
  - reflexivity.
  - reflexivity.
  - reflexivity.
  - exists part, remainder, s'. auto.
Defined.

End HosClaims.

Section HosClaimsLimits.

Open Scope Q_scope.

(** C5: the progress step is not always positive.  After a leg of
    exactly 11 hours, and the break that follows it, the next driving leg
    takes the split branch with [remaining_drive_time = 0]: the loop
    emits a driving segment of no miles and no hours and a rest of ten
    hours, and requeues the whole leg.  The run on doubles is the
    same. *)
Theorem full_shift_split_has_zero_step :
  (exists s segment queue,
      reachable (hos_init [leg_660; leg_60] 0) s
      /\ segment_queue s = segment :: queue
      /\ is_driving segment = true
      /\ hours_since_break s < 8
      /\ 11 - hours_driving s < estimated_drive_time segment
      /\ ~ 0 < 11 - hours_driving s)
  /\ (exists part remainder,
        apply_hos_regulations [leg_660; leg_60] 0
        = Some (Ok [leg_660; break_segment "Dock"; part;
                    rest_segment "Rest Stop (Dock to Yard)"; remainder])
        /\ is_driving part = true
        /\ estimated_drive_time part == 0
        /\ distance_miles part == 0
        /\ estimated_drive_time remainder == estimated_drive_time leg_60
        /\ distance_miles remainder == distance_miles leg_60)
  /\ Doubles.apply_hos_regulations 5 [double_660; double_60] 0
     = Some (Ok [double_660;
                 Doubles.break_segment "Dock";
                 Doubles.mkSegment "driving" "Dock"
                   "Rest Stop (Dock to Yard)" 0 0;
                 Doubles.rest_segment "Rest Stop (Dock to Yard)";
                 Doubles.mkSegment "driving" "Rest Stop (Dock to Yard)"
                   "Yard" 60 1]).
Proof.
  split; [|split].
  - exists (mkHosState [leg_60] [leg_660; break_segment "Dock"]
                       (0 + 11) (0 + 11 + 0.5) (0 + 11 + 0.5) 0),
           leg_60, [].
    split.
    + apply hos_iter_reachable with (n := 2%nat)
                                    (s := hos_init [leg_660; leg_60] 0).
      * apply reach_start.
      * reflexivity.
    + repeat split; try reflexivity. intro H. discriminate H.
  - do 2 eexists. split; [reflexivity|].
    repeat split.
  - reflexivity.
Qed.

(** C1: the limits are not kept.  A single leg of 10 hours is emitted
    whole, ten hours of driving with no break before or within it; and
    the split branch never looks at the 14-hour window: after ten hours
    of loading, a leg of 12 hours is split into 11 hours of driving that
    end 21 hours into the duty period.  The runs on doubles are the
    same. *)
Theorem ten_hour_leg_has_no_break :
  (apply_hos_regulations [leg_600] 0 = Some (Ok [leg_600])
   /\ since_break (tally [leg_600]) == 10
   /\ ~ within_all_limits [leg_600])
  /\ Doubles.apply_hos_regulations 1 [double_600] 0
     = Some (Ok [double_600])
  /\ (exists part remainder,
        apply_hos_regulations [loading_10; leg_720] 0
        = Some (Ok [loading_10; part;
                    rest_segment "Rest Stop (Dock to Yard)"; remainder])
        /\ is_driving part = true
        /\ estimated_drive_time part == 11
        /\ on_duty (tally [loading_10; part]) == 21
        /\ ~ within_all_limits
               [loading_10; part;
                rest_segment "Rest Stop (Dock to Yard)"; remainder])
  /\ Doubles.apply_hos_regulations 3 [double_loading_10; double_720] 0
     = Some (Ok [double_loading_10;
                 Doubles.mkSegment "driving" "Dock"
                   "Rest Stop (Dock to Yard)" 660 11;
                 Doubles.rest_segment "Rest Stop (Dock to Yard)";
                 Doubles.mkSegment "driving" "Rest Stop (Dock to Yard)"
                   "Yard" 60 1]).
Proof.
  split; [|split; [|split]].
  - split; [reflexivity|]. split; [reflexivity|].
    intro H.
    destruct (H [] leg_600 [] eq_refl eq_refl) as (_ & _ & _ & Hbreak).
    revert Hbreak. vm_compute. intro Hbreak. apply Hbreak. reflexivity.
  - reflexivity.
  - do 2 eexists. split; [reflexivity|].
    split; [reflexivity|]. split; [reflexivity|]. split; [reflexivity|].
    intro H.
    match type of H with
    | within_all_limits [?a; ?b; ?c; ?d] =>
        destruct (H [a] b [c; d] eq_refl eq_refl) as (_ & _ & Hduty & _)
    end.
    revert Hduty. vm_compute. intro Hduty. apply Hduty. reflexivity.
  - reflexivity.
Qed.

(** C3: the seed is taken off the daily allowances.  A tracker built
    with 14 cycle hours used starts with minus 3 driving hours and no
    duty window left, not with 11 and 14: it lets no leg be driven and
    raises on the first on-duty stop, before any work is recorded, while
    [apply_hos_regulations] starts from the same seed with no hours
    driven and none on duty. *)
Theorem tracker_seed_cuts_daily_allowances :
  ~ (HOSCalculator.driving_hours_left (HOSCalculator.__init__ 14) == 11
     /\ HOSCalculator.duty_window_left (HOSCalculator.__init__ 14) == 14
     /\ HOSCalculator.cycle_hours_left (HOSCalculator.__init__ 14)
        == 70 - 14
     /\ HOSCalculator.time_since_last_break (HOSCalculator.__init__ 14)
        == 0)
  /\ HOSCalculator.driving_hours_left (HOSCalculator.__init__ 14) == -(3)
  /\ HOSCalculator.duty_window_left (HOSCalculator.__init__ 14) == 0
  /\ HOSCalculator.cycle_hours_left (HOSCalculator.__init__ 14) == 56
  /\ HOSCalculator.can_drive (HOSCalculator.__init__ 14) 1 = false
  /\ HOSCalculator.add_on_duty_time (HOSCalculator.__init__ 14) 1
     = Raised (ValueError "14-hour duty window expired")
  /\ hours_driving (hos_init [] 14) = 0
  /\ hours_duty (hos_init [] 14) = 0
  /\ cycle_hours (hos_init [] 14) = 14.
Proof.
  split.
  - intros (H & _). revert H. vm_compute. discriminate.
  - repeat split.
Qed.

End HosClaimsLimits.

(** ** The log partitioner *)

Section LogProofs.

Open Scope Z_scope.

Lemma usec_per_day_value : usec_per_day = 86400000000.
Proof. reflexivity. Qed.

Lemma usec_per_second_value : usec_per_second = 1000000.
Proof. reflexivity. Qed.

Lemma usec_per_hour_value : usec_per_hour = 3600000000.
Proof. reflexivity. Qed.

Lemma last_second_value : last_second = 86399000000.
Proof. reflexivity. Qed.

Ltac units :=
  rewrite ?usec_per_day_value, ?usec_per_second_value,
    ?usec_per_hour_value, ?last_second_value in *.

Lemma time_of_range (dt : Z) : 0 <= time_of dt < usec_per_day.
Proof. unfold time_of. apply Z.mod_pos_bound. reflexivity. Qed.

Lemma combine_date_time (dt : Z) : combine (date_of dt) (time_of dt) = dt.
Proof.
  unfold combine, date_of, time_of.
  rewrite (Z.div_mod dt usec_per_day) at 3 by discriminate. lia.
Qed.

(** One second before the midnight that ends day [d] it is 23:59:59. *)
Lemma time_before_midnight (d : Z) :
  time_of (combine (d + 1) min_time - usec_per_second) = last_second.
Proof.
  unfold time_of, combine, min_time. symmetry.
  apply Zmod_unique with (q := d); units; lia.
Qed.

Lemma date_of_mono (a b : Z) : a <= b -> date_of a <= date_of b.
Proof. intro H. unfold date_of. apply Z.div_le_mono; [reflexivity|exact H]. Qed.

Lemma same_date_time_le (a b : Z) :
  a <= b -> date_of a = date_of b -> time_of a <= time_of b.
Proof.
  intros Hab Hd.
  pose proof (combine_date_time a) as Ha.
  pose proof (combine_date_time b) as Hb.
  unfold combine in *. rewrite Hd in Ha. lia.
Qed.

Lemma round_half_even_nonneg (q : Q) : (0 <= q)%Q -> 0 <= round_half_even q.
Proof.
  intro H. unfold round_half_even.
  assert (0 <= Qfloor q).
  { change 0 with (Qfloor (inject_Z 0)). apply Qfloor_resp_le. exact H. }
  destruct (Qcompare _ _); [destruct (Z.even _)| |]; lia.
Qed.

Lemma timedelta_hours_nonneg (h : Q) : (0 <= h)%Q -> 0 <= timedelta_hours h.
Proof.
  intro H. unfold timedelta_hours. apply round_half_even_nonneg.
  apply Qmult_le_0_compat; [exact H|]. discriminate.
Qed.

(** *** Paths *)

Lemma path_app (p q q' : Z * Z) (l1 l2 : list LogEntry) :
  path p l1 q -> path q l2 q' -> path p (l1 ++ l2) q'.
Proof.
  intros H1 H2. induction H1 as [r Hr | r l d t q Hl IH Hn]; simpl.
  - apply path_next with (d := date r) (t := end_time r);
      [exact H2 | left; auto].
  - apply path_next with (d := d) (t := t); [apply IH; exact H2 | exact Hn].
Qed.

Lemma path_head (p q : Z * Z) (l : list LogEntry) :
  path p l q ->
  exists r l', l = r :: l' /\ p = (date r, start_time r).
Proof. intro H. destruct H; eauto. Qed.

Lemma path_end (p q : Z * Z) (l : list LogEntry) :
  path p l q ->
  exists l' r, l = l' ++ [r] /\ q = (date r, end_time r).
Proof.
  intro H. induction H as [r Hr | r l d t q Hl IH Hn].
  - exists [], r. auto.
  - destruct IH as (l' & r' & -> & ->). exists (r :: l'), r'. auto.
Qed.

Lemma next_of_adjacent (r b : LogEntry) :
  next_of r (date b) (start_time b) -> adjacent r b.
Proof. unfold next_of, adjacent. intuition. Qed.

Lemma next_of_key_le (r b : LogEntry) :
  next_of r (date b) (start_time b) -> log_key_le r b = true.
Proof.
  unfold next_of, log_key_le. intros [(Hd & Ht & Hle)|(Hd & _ & _)].
  - rewrite Hd, Ht. rewrite Z.eqb_refl.
    apply orb_true_iff. right. simpl. apply Z.leb_le. exact Hle.
  - apply orb_true_iff. left. apply Z.ltb_lt. lia.
Qed.

Lemma path_adjacent (p q : Z * Z) (l : list LogEntry) :
  path p l q -> Sorted adjacent l.
Proof.
  intro H. induction H as [r Hr | r l d t q Hl IH Hn].
  - repeat constructor.
  - constructor; [exact IH|].
    destruct (path_head Hl) as (b & l' & -> & Hp).
    injection Hp as -> ->.
    constructor. apply next_of_adjacent. exact Hn.
Qed.

Lemma path_ordered (p q : Z * Z) (l : list LogEntry) :
  path p l q -> logs l = l.
Proof.
  intro H. induction H as [r Hr | r l d t q Hl IH Hn].
  - reflexivity.
  - unfold logs in *. simpl. rewrite IH.
    destruct (path_head Hl) as (b & l' & -> & Hp).
    injection Hp as -> ->.
    simpl. rewrite (@next_of_key_le _ _ Hn). reflexivity.
Qed.

End LogProofs.

Section SegmentLogs.

Open Scope Z_scope.

Lemma full_days_path (n : nat) :
  forall cd st loc te,
    0 <= te ->
    path (cd, min_time)
         (full_days n cd st loc
            ++ [mkLogEntry (cd + Z.of_nat n) st min_time te loc])
         (cd + Z.of_nat n, te).
Proof.
  induction n as [|n IH]; intros cd st loc te Hte.
  - simpl. rewrite Z.add_0_r.
    exact (@path_last (mkLogEntry cd st min_time te loc) Hte).
  - replace (cd + Z.of_nat (S n)) with (cd + 1 + Z.of_nat n) by lia.
    cbn [full_days app].
    apply (@path_next
             (mkLogEntry cd st min_time
                (time_of (combine (cd + 1) min_time - usec_per_second))
                loc)
             _ _ _ _ (IH (cd + 1) st loc te Hte)).
    right. simpl. rewrite time_before_midnight. auto.
Qed.

Lemma full_days_snoc (n : nat) :
  forall cd st loc,
    full_days (S n) cd st loc
    = full_days n cd st loc
        ++ [mkLogEntry (cd + Z.of_nat n) st min_time last_second loc].
Proof.
  induction n as [|n IH]; intros cd st loc.
  - simpl. rewrite Z.add_0_r, time_before_midnight. reflexivity.
  - change (full_days (S (S n)) cd st loc)
      with (mkLogEntry cd st min_time
              (time_of (combine (cd + 1) min_time - usec_per_second)) loc
            :: full_days (S n) (cd + 1) st loc).
    rewrite IH. cbn [full_days app].
    replace (cd + 1 + Z.of_nat n) with (cd + Z.of_nat (S n)) by lia.
    reflexivity.
Qed.

Lemma full_days_in_day (n : nat) :
  forall cd st loc, Forall in_day (full_days n cd st loc).
Proof.
  induction n as [|n IH]; intros cd st loc; simpl; constructor.
  - unfold in_day. simpl. split; [|apply time_of_range].
    unfold min_time. rewrite usec_per_day_value. lia.
  - apply IH.
Qed.

Lemma full_days_forward (n : nat) :
  forall cd st loc, Forall forward (full_days n cd st loc).
Proof.
  induction n as [|n IH]; intros cd st loc; simpl; constructor.
  - unfold forward. simpl. apply time_of_range.
  - apply IH.
Qed.

(** When the end is on a later date, the segment's entries. *)
Lemma segment_logs_crossing (segment : Segment) (s : Z) :
  date_of s <> date_of (s + timedelta_hours (estimated_drive_time segment))
  ->
  segment_logs segment s =
  ((mkLogEntry (date_of s) (segment_type_to_status (type segment))
               (time_of s) last_second (start_location segment)
    :: full_days
         (Z.to_nat
            (date_of (s + timedelta_hours (estimated_drive_time segment))
             - (date_of s + 1)))
         (date_of s + 1) (segment_type_to_status (type segment))
         (start_location segment))
     ++ [mkLogEntry
           (date_of (s + timedelta_hours (estimated_drive_time segment)))
           (segment_type_to_status (type segment)) min_time
           (time_of (s + timedelta_hours (estimated_drive_time segment)))
           (start_location segment)],
   s + timedelta_hours (estimated_drive_time segment)).
Proof.
  intro Hne. unfold segment_logs.
  apply Z.eqb_neq in Hne. rewrite Hne.
  rewrite time_before_midnight. reflexivity.
Qed.

Lemma segment_logs_same_date (segment : Segment) (s : Z) :
  date_of s = date_of (s + timedelta_hours (estimated_drive_time segment))
  ->
  segment_logs segment s =
  ([mkLogEntry (date_of s) (segment_type_to_status (type segment))
               (time_of s)
               (time_of (s + timedelta_hours (estimated_drive_time segment)))
               (start_location segment)],
   s + timedelta_hours (estimated_drive_time segment)).
Proof.
  intro He. unfold segment_logs.
  apply Z.eqb_eq in He. rewrite He. reflexivity.
Qed.

Lemma segment_logs_end (segment : Segment) (s : Z) :
  snd (segment_logs segment s)
  = s + timedelta_hours (estimated_drive_time segment).
Proof.
  unfold segment_logs. destruct (_ =? _); reflexivity.
Qed.

Lemma segment_logs_path (segment : Segment) (s : Z) :
  0 <= timedelta_hours (estimated_drive_time segment) ->
  path (date_of s, time_of s)
       (fst (segment_logs segment s))
       (date_of (s + timedelta_hours (estimated_drive_time segment)),
        time_of (s + timedelta_hours (estimated_drive_time segment))).
Proof.
  intro Htd.
  set (e := s + timedelta_hours (estimated_drive_time segment)).
  assert (Hse : s <= e) by (unfold e; lia).
  destruct (Z.eq_dec (date_of s) (date_of e)) as [Heq|Hne].
  - rewrite (segment_logs_same_date segment s Heq). simpl. fold e.
    rewrite <- Heq.
    exact (@path_last
             (mkLogEntry (date_of s) _ (time_of s) (time_of e) _)
             (same_date_time_le Hse Heq)).
  - rewrite (segment_logs_crossing segment s Hne). simpl. fold e.
    pose proof (date_of_mono Hse) as Hmono.
    pose proof (time_of_range e) as He.
    set (n := Z.to_nat (date_of e - (date_of s + 1))).
    assert (Hn : date_of e = date_of s + 1 + Z.of_nat n)
      by (unfold n; lia).
    rewrite Hn.
    apply (@path_next
             (mkLogEntry (date_of s) _ (time_of s) last_second _)
             _ _ _ _ (full_days_path n (date_of s + 1) _ _ (proj1 He))).
    right. simpl. auto.
Qed.

Lemma segment_logs_in_day (segment : Segment) (s : Z) :
  Forall in_day (fst (segment_logs segment s)).
Proof.
  pose proof (time_of_range s) as Hs.
  pose proof (time_of_range
                (s + timedelta_hours (estimated_drive_time segment)))
    as He.
  unfold segment_logs. destruct (_ =? _); simpl.
  - constructor; [split; assumption | constructor].
  - constructor.
    + split; [assumption|]. simpl. apply time_of_range.
    + apply Forall_app. split; [apply full_days_in_day|].
      constructor; [|constructor]. split; [|assumption].
      simpl. unfold min_time. rewrite usec_per_day_value. lia.
Qed.

(** A whole second of a day is at most 23:59:59. *)
Lemma whole_second_before_last (s : Z) :
  s mod usec_per_second = 0 -> time_of s <= last_second.
Proof.
  intro H. unfold time_of.
  pose proof (Z.div_mod s usec_per_second) as Hs.
  pose proof (Z.div_mod s usec_per_day) as Hd.
  pose proof (Z.mod_pos_bound s usec_per_day) as Hb.
  rewrite usec_per_day_value, usec_per_second_value, last_second_value
    in *.
  specialize (Hs ltac:(discriminate)). specialize (Hd ltac:(discriminate)).
  specialize (Hb ltac:(reflexivity)). lia.
Qed.

Lemma segment_logs_forward (segment : Segment) (s : Z) :
  0 <= timedelta_hours (estimated_drive_time segment) ->
  s mod usec_per_second = 0 ->
  Forall forward (fst (segment_logs segment s)).
Proof.
  intros Htd Hs.
  set (e := s + timedelta_hours (estimated_drive_time segment)).
  assert (Hse : s <= e) by (unfold e; lia).
  destruct (Z.eq_dec (date_of s) (date_of e)) as [Heq|Hne].
  - rewrite (segment_logs_same_date segment s Heq). simpl.
    constructor; [|constructor].
    exact (same_date_time_le Hse Heq).
  - rewrite (segment_logs_crossing segment s Hne). simpl.
    constructor.
    + exact (whole_second_before_last s Hs).
    + apply Forall_app. split; [apply full_days_forward|].
      constructor; [|constructor]. unfold forward. simpl.
      apply time_of_range.
Qed.

(** Whatever the start, an entry ends before it starts only when it
    starts within the last second of a day. *)
Lemma segment_logs_forward_or_late (segment : Segment) (s : Z) :
  0 <= timedelta_hours (estimated_drive_time segment) ->
  Forall (fun entry => forward entry \/ last_second < start_time entry)
         (fst (segment_logs segment s)).
Proof.
  intros Htd.
  set (e := s + timedelta_hours (estimated_drive_time segment)).
  assert (Hse : s <= e) by (unfold e; lia).
  destruct (Z.eq_dec (date_of s) (date_of e)) as [Heq|Hne].
  - rewrite (segment_logs_same_date segment s Heq). simpl.
    constructor; [|constructor].
    left. exact (same_date_time_le Hse Heq).
  - rewrite (segment_logs_crossing segment s Hne). simpl.
    constructor.
    + unfold forward. simpl.
      destruct (Z_le_gt_dec (time_of s) last_second); [left|right]; lia.
    + apply Forall_app. split.
      * eapply Forall_impl; [|apply full_days_forward].
        intros entry H. left. exact H.
      * constructor; [|constructor]. left. unfold forward. simpl.
        apply time_of_range.
Qed.

End SegmentLogs.

Section LogClaims.

Open Scope Z_scope.

Lemma generate_logs_from_cons (segment : Segment)
    (segments : list Segment) (s : Z) :
  generate_logs_from (segment :: segments) s
  = (fst (segment_logs segment s)
     ++ generate_logs_from segments
          (s + timedelta_hours (estimated_drive_time segment)))%list.
Proof.
  simpl. rewrite <- segment_logs_end.
  destruct (segment_logs segment s). reflexivity.
Qed.

Lemma generate_logs_from_path (segments : list Segment) :
  forall s,
    Forall nonneg_duration segments ->
    segments <> [] ->
    path (date_of s, time_of s)
         (generate_logs_from segments s)
         (date_of (s + total_timedelta segments),
          time_of (s + total_timedelta segments)).
Proof.
  induction segments as [|segment segments IH]; intros s Hnn Hne;
    [congruence|].
  rewrite generate_logs_from_cons.
  pose proof (timedelta_hours_nonneg (Forall_inv Hnn)) as Htd.
  pose proof (segment_logs_path segment s Htd) as Hseg.
  destruct segments as [|segment' segments].
  - simpl. rewrite app_nil_r, Z.add_0_r. exact Hseg.
  - apply (path_app Hseg).
    replace (s + total_timedelta (segment :: segment' :: segments))
      with (s + timedelta_hours (estimated_drive_time segment)
            + total_timedelta (segment' :: segments))
      by (simpl; lia).
    apply IH; [exact (Forall_inv_tail Hnn) | discriminate].
Qed.

Lemma generate_logs_from_in_day (segments : list Segment) :
  forall s, Forall in_day (generate_logs_from segments s).
Proof.
  induction segments as [|segment segments IH]; intro s.
  - constructor.
  - rewrite generate_logs_from_cons. apply Forall_app.
    split; [apply segment_logs_in_day | apply IH].
Qed.

Lemma generate_logs_from_forward (segments : list Segment) :
  forall s,
    Forall nonneg_duration segments ->
    Forall whole_seconds segments ->
    s mod usec_per_second = 0 ->
    Forall forward (generate_logs_from segments s).
Proof.
  induction segments as [|segment segments IH]; intros s Hnn Hws Hs.
  - constructor.
  - rewrite generate_logs_from_cons. apply Forall_app.
    pose proof (timedelta_hours_nonneg (Forall_inv Hnn)) as Htd.
    split; [apply segment_logs_forward; assumption|].
    apply IH;
      [exact (Forall_inv_tail Hnn) | exact (Forall_inv_tail Hws) |].
    pose proof (Forall_inv Hws) as Hw. unfold whole_seconds in Hw.
    rewrite Z.add_mod by discriminate. rewrite Hs, Hw. reflexivity.
Qed.

Lemma generate_logs_from_forward_or_late (segments : list Segment) :
  forall s,
    Forall nonneg_duration segments ->
    Forall (fun entry => forward entry \/ last_second < start_time entry)
           (generate_logs_from segments s).
Proof.
  induction segments as [|segment segments IH]; intros s Hnn.
  - constructor.
  - rewrite generate_logs_from_cons. apply Forall_app.
    pose proof (timedelta_hours_nonneg (Forall_inv Hnn)) as Htd.
    split; [apply segment_logs_forward_or_late; assumption|].
    apply IH. exact (Forall_inv_tail Hnn).
Qed.

Lemma truncate_to_hour_whole_second (now : Z) :
  truncate_to_hour now mod usec_per_second = 0.
Proof.
  unfold truncate_to_hour.
  pose proof (Z.div_mod now usec_per_hour ltac:(discriminate)) as H.
  replace (now - now mod usec_per_hour)
    with (now / usec_per_hour * 3600 * usec_per_second)
    by (rewrite usec_per_hour_value, usec_per_second_value in *; lia).
  apply Z.mod_mul. discriminate.
Qed.

(** C2: the entries do not always tile the timeline.  With a start at
    22:00, a rest of 7199.780273 seconds ends within the last second of
    the day; the hour at the dock that follows it crosses midnight, and
    its first entry runs from 23:59:59.780273 to 23:59:59: it ends before
    it starts and overlaps the entry of the rest. *)
Theorem last_second_start_breaks_tiling :
  generate_logs [short_rest; dock_hour] ten_pm
  = [mkLogEntry 0 "off_duty" 79200000000 86399780273 "Yard";
     mkLogEntry 0 "on_duty_not_driving" 86399780273 86399000000 "Dock";
     mkLogEntry 1 "on_duty_not_driving" 0 3599780273 "Dock"]
  /\ ~ tiles (generate_logs [short_rest; dock_hour] ten_pm)
  /\ ~ tiles (logs (generate_logs [short_rest; dock_hour] ten_pm)).
Proof.
  split; [reflexivity|].
  assert (Hbad : forall l,
             In (mkLogEntry 0 "on_duty_not_driving"
                            86399780273 86399000000 "Dock") l ->
             ~ tiles l).
  { intros l Hin (Hfwd & _).
    rewrite Forall_forall in Hfwd. specialize (Hfwd _ Hin).
    unfold forward in Hfwd. simpl in Hfwd. lia. }
  split; apply Hbad; vm_compute; auto.
Qed.

(** What the entries do keep: for segments of non-negative duration the
    entries written by [generate_logs], taken in the order of their
    creation, are in the order of (date, start time); each entry has both
    times within its one date; each entry is followed by one that starts
    on the same date at the time it ends, or at 00:00:00 of the next date
    when it ends at 23:59:59; the first entry starts at the truncated
    start and the last one ends at the truncated start plus the sum of
    the durations.  An entry ends before it starts only when it starts
    after 23:59:59, within the last second of its date; when every
    duration is a whole number of seconds, none does. *)
Lemma generate_logs_tiles_timeline (segments : list Segment) (now : Z) :
  Forall nonneg_duration segments ->
  let entries := generate_logs segments now in
  logs entries = entries
  /\ Forall in_day entries
  /\ Sorted adjacent entries
  /\ (segments <> [] ->
        exists first middle last others,
          entries = first :: middle
          /\ entries = (others ++ [last])%list
          /\ combine (date first) (start_time first)
             = truncate_to_hour now
          /\ end_instant last
             = truncate_to_hour now + total_timedelta segments)
  /\ Forall (fun entry => forward entry \/ last_second < start_time entry)
            entries
  /\ (Forall whole_seconds segments -> Forall forward entries).
Proof.
  intros Hnn entries. unfold entries, generate_logs.
  destruct segments as [|segment segments].
  - simpl. repeat split; try constructor. congruence.
  - assert (Hne : segment :: segments <> []) by discriminate.
    pose proof (generate_logs_from_path (truncate_to_hour now) Hnn Hne)
      as Hpath.
    split; [exact (path_ordered Hpath)|].
    split; [apply generate_logs_from_in_day|].
    split; [exact (path_adjacent Hpath)|].
    split.
    + intros _.
      destruct (path_head Hpath) as (first & middle & Hfirst & Hp).
      destruct (path_end Hpath) as (others & last & Hlast & Hq).
      exists first, middle, last, others.
      split; [exact Hfirst|]. split; [exact Hlast|].
      injection Hp as Hd Ht. injection Hq as Hd' Ht'.
      unfold end_instant. rewrite <- Hd, <- Ht, <- Hd', <- Ht'.
      split; apply combine_date_time.
    + split; [apply generate_logs_from_forward_or_late; exact Hnn|].
      intro Hws. apply generate_logs_from_forward; try assumption.
      apply truncate_to_hour_whole_second.
Qed.

Lemma generate_logs_tiles_timeline_witness :
  let entries := generate_logs [four_hour_rest] ten_pm in
  logs entries = entries
  /\ Sorted adjacent entries
  /\ entries
     = [mkLogEntry 0 "off_duty" (22 * usec_per_hour) last_second "Yard";
        mkLogEntry 1 "off_duty" 0 (2 * usec_per_hour) "Yard"].
Proof.
  destruct (@generate_logs_tiles_timeline [four_hour_rest] ten_pm)
    as (Hord & _ & Hadj & _).
  - repeat constructor. unfold nonneg_duration, Qle. simpl. lia.
  - split; [exact Hord|]. split; [exact Hadj|]. reflexivity.
Defined.

(** C10, as stated, fails: a segment of no duration that
    starts at a midnight ends at that midnight and gets one entry,
    with no entry before it that ends at 23:59:59. *)
Lemma still_leg_at_midnight_has_one_entry :
  time_of (0 + timedelta_hours (estimated_drive_time still_leg)) = 0
  /\ fst (segment_logs still_leg 0)
     = [mkLogEntry 0 "driving" 0 0 "Depot"]
  /\ ~ exists before previous last,
         fst (segment_logs still_leg 0)
         = (before ++ [previous; last])%list.
Proof.
  split; [reflexivity|]. split; [reflexivity|].
  intros (before & previous & last & H).
  apply (f_equal (@List.length LogEntry)) in H.
  rewrite length_app in H. simpl in H. lia.
Qed.

(** C10, amended: for a segment that starts before its end instant and
    ends exactly on a midnight, [generate_logs] takes the
    midnight-crossing branch, and the last two entries it writes for
    the segment are one that ends at 23:59:59 of the date before the
    end date and one on the end date from 00:00:00 to 00:00:00. *)
Theorem midnight_end_writes_empty_entry (segment : Segment) (s : Z) :
  let e := s + timedelta_hours (estimated_drive_time segment) in
  s < e ->
  time_of e = 0 ->
  date_of s <> date_of e
  /\ exists before previous,
       fst (segment_logs segment s)
       = (before
          ++ [previous;
              mkLogEntry (date_of e)
                         (segment_type_to_status (type segment))
                         min_time min_time (start_location segment)])%list
       /\ date previous = date_of e - 1
       /\ end_time previous = last_second.
Proof.
  intros e Hlt Hmid.
  assert (Hdate : date_of s < date_of e).
  { pose proof (combine_date_time e) as He.
    pose proof (combine_date_time s) as Hs.
    pose proof (time_of_range s) as Hr.
    unfold combine in *. rewrite Hmid in He.
    rewrite usec_per_day_value in *. nia. }
  split; [lia|].
  rewrite segment_logs_crossing by (fold e; lia).
  fold e. rewrite Hmid. cbn [fst].
  destruct (Z.to_nat (date_of e - (date_of s + 1))) as [|n] eqn:Hn.
  - exists [], (mkLogEntry (date_of s) (segment_type_to_status (type segment))
                           (time_of s) last_second (start_location segment)).
    simpl. repeat split. lia.
  - rewrite full_days_snoc.
    eexists (_ :: full_days n _ _ _), _.
    split.
    + cbn [app]. rewrite <- app_assoc. reflexivity.
    + simpl. split; [lia | reflexivity].
Qed.

Lemma midnight_end_writes_empty_entry_witness :
  exists before previous,
    fst (segment_logs (mkSegment "rest" "Yard" "Yard" 0 2)
                      (22 * usec_per_hour))
    = (before ++ [previous; mkLogEntry 1 "off_duty" 0 0 "Yard"])%list
    /\ date previous = 0
    /\ end_time previous = last_second.
Proof.
  destruct (@midnight_end_writes_empty_entry
              (mkSegment "rest" "Yard" "Yard" 0 2) (22 * usec_per_hour))
    as (_ & before & previous & H).
  - reflexivity.
  - reflexivity.
  - exists before, previous. exact H.
Defined.

End LogClaims.

(** ** The planning entry point *)

Section PlanRouteClaims.

Variable geocode : string -> result (option Location).
Variable distance : Location -> Location -> Q.
Variable str : exn -> string.

Lemma plan_route_try_planned (trip : Trip) (now : Z)
    (current pickup dropoff : Location) :
  geocode (current_location trip) = Ok (Some current) ->
  geocode (pickup_location trip) = Ok (Some pickup) ->
  geocode (dropoff_location trip) = Ok (Some dropoff) ->
  exists segments,
    plan_route_try geocode distance trip now
    = Some (Ok (inr (mkDatabase segments (generate_logs segments now)))).
Proof.
  intros Hc Hp Hd. unfold plan_route_try. rewrite Hc, Hp, Hd.
  destruct (add_fuel_stops_preserves_fuel
              (initial_segments trip (distance current pickup)
                                (distance pickup dropoff)))
    as (fuelled & Hfuel).
  rewrite Hfuel.
  destruct (apply_hos_regulations_returns fuelled
              (current_hours_used trip)) as (s' & _ & _ & Hhos).
  rewrite Hhos. eauto.
Qed.

(** C8, amended: [plan_route] checks neither the distances nor
    [current_hours_used]; it always answers, it plans the route and
    reports success whenever the three places are geocoded, whatever
    the hours and distances are, and it answers with an error, leaving
    the trip without rows, only when geocoding raises or finds
    nothing. *)
Theorem plan_route_rejects_only_geocoding (trip : Trip) (db : Database)
    (now : Z) :
  exists response db',
    plan_route geocode distance str trip db now = Some (response, db')
    /\ (geocoded geocode trip ->
          response = Response200 "Route planned successfully"
          /\ exists segments,
               db' = mkDatabase segments (generate_logs segments now))
    /\ (~ geocoded geocode trip ->
          exists msg,
            response = Response400 msg /\ db' = mkDatabase [] []).
Proof.
  unfold plan_route.
  destruct (geocode (current_location trip)) as [[current|]|e1] eqn:Hc;
    destruct (geocode (pickup_location trip)) as [[pickup|]|e2] eqn:Hp;
    destruct (geocode (dropoff_location trip)) as [[dropoff|]|e3] eqn:Hd.
  1: { destruct (plan_route_try_planned trip now Hc Hp Hd)
         as (segments & Htry).
       rewrite Htry. do 2 eexists. split; [reflexivity|]. split.
       - intros _. split; [reflexivity|]. eauto.
       - intro Hno. exfalso. apply Hno. exists current, pickup, dropoff.
         auto. }
  all: unfold plan_route_try; rewrite Hc, ?Hp, ?Hd;
    do 2 eexists; (split; [reflexivity|]); split;
    [ intros (c' & p' & d' & H1 & H2 & H3); congruence
    | intros _; eauto ].
Qed.

End PlanRouteClaims.

Section PlanRouteCases.

Open Scope Q_scope.

(** C8, as stated, fails: a trip with 100 cycle hours used,
    outside [0, 70], is planned and stored. *)
Lemma hundred_hours_are_planned :
  100 > 70
  /\ ~ rejected (plan_route found_everywhere miles_120 exn_name
                   (mkTrip "Depot" "Dock" "Yard" 100)
                   (mkDatabase [] []) 0).
Proof.
  split; [reflexivity|].
  intros (msg & H). vm_compute in H. discriminate H.
Qed.

End PlanRouteCases.

(** ** Scenarios of the specification *)

Section Scenarios.

Open Scope Q_scope.

(** A leg of 700 miles: 11 hours of driving, a rest of ten hours, and the
    last 40 minutes. *)
Example scenario_700_miles :
  apply_hos_regulations [leg_700] 0
  = Some (Ok [mkSegment "driving" "Depot" "Rest Stop (Depot to Dock)"
                        ((11 - 0) / (700 / 60) * 700) (11 - 0);
              rest_segment "Rest Stop (Depot to Dock)";
              mkSegment "driving" "Rest Stop (Depot to Dock)" "Dock"
                        (700 - (11 - 0) / (700 / 60) * 700)
                        (700 / 60 - (11 - 0))]).
Proof. reflexivity. Qed.

(** Two legs of 50 miles with a pickup and a dropoff pass unchanged. *)
Example scenario_short_trip :
  let legs := [mkSegment "driving" "Depot" "Dock" 50 (50 / 60);
               mkSegment "pickup" "Dock" "Dock" 0 1;
               mkSegment "driving" "Dock" "Yard" 50 (50 / 60);
               mkSegment "dropoff" "Yard" "Yard" 0 1] in
  add_fuel_stops legs = Some legs
  /\ apply_hos_regulations legs 0 = Some (Ok legs).
Proof. split; reflexivity. Qed.

(** A leg of 2500 miles gets two fuel stops and a last leg of 500
    miles. *)
Example scenario_fuel_stops :
  option_map (map distance_miles)
    (add_fuel_stops [mkSegment "driving" "Depot" "Dock" 2500 (2500 / 60)])
  = Some [1000; 0; 1000; 0; 2500 - 1000 - 1000].
Proof. reflexivity. Qed.

(** A rest of exactly ten hours resets the allowances of the tracker and
    leaves the cycle hours as they were. *)
Example scenario_ten_hour_rest (self : HOSCalculator.t) :
  let self' := HOSCalculator.take_break self 10 in
  HOSCalculator.driving_hours_left self' = 11
  /\ HOSCalculator.duty_window_left self' = 14
  /\ HOSCalculator.time_since_last_break self' = 0
  /\ HOSCalculator.cycle_hours_left self'
     = HOSCalculator.cycle_hours_left self.
Proof. destruct self. repeat split. Qed.

End Scenarios.

(** ** The duty-state tracker *)

Section TrackerProofs.

Import HOSCalculator.

Open Scope Q_scope.

Lemma can_drive_after_rest (self : t) (hours : Q) :
  hours <= 11 -> can_drive (take_break self 10) hours = true.
Proof.
  intro H. unfold can_drive, take_break. simpl.
  destruct (Qle_bool hours 0); [reflexivity|].
  apply Qle_bool_iff. exact H.
Qed.

Lemma rest_caps_driving (self : t) :
  driving_hours_left (take_break self 10) = 11.
Proof. reflexivity. Qed.

Lemma can_drive_false_over_cap (self : t) (hours : Q) :
  driving_hours_left self <= 11 -> 11 < hours ->
  can_drive self hours = false.
Proof.
  intros Hcap Hh. unfold can_drive.
  destruct (Qle_bool hours 0) eqn:E0.
  { apply Qle_bool_iff in E0. lra. }
  destruct (_ || _); [reflexivity|].
  destruct (Qgeb _ 8); [reflexivity|].
  destruct (Qle_bool hours (driving_hours_left self)) eqn:E;
    [|reflexivity].
  apply Qle_bool_iff in E. lra.
Qed.

(** X1: after a break of ten hours the tracker lets a leg be driven
    exactly when it lasts at most 11 hours, whatever the state before
    the break was. *)
Theorem ten_hour_break_allows_eleven (self : t) (hours : Q) :
  can_drive (take_break self 10) hours = true <-> hours <= 11.
Proof.
  split; [|apply can_drive_after_rest].
  unfold can_drive, take_break. simpl.
  destruct (Qle_bool hours 0) eqn:E0.
  - intros _. apply Qle_bool_iff in E0. lra.
  - intro H. apply Qle_bool_iff in H. exact H.
Qed.

(** X2: [add_driving_time] accepts hours that are zero or negative in
    every state, also with no driving hours left or a break due, and
    negative hours give allowance back. *)
Theorem nonpositive_drive_always_accepted (self : t) (hours : Q) :
  hours <= 0 ->
  exists self' status,
    add_driving_time self hours = Ok (self', status)
    /\ driving_hours_left self <= driving_hours_left self'
    /\ duty_window_left self <= duty_window_left self'
    /\ cycle_hours_left self <= cycle_hours_left self'
    /\ time_since_last_break self' <= time_since_last_break self.
Proof.
  intro H. unfold add_driving_time, can_drive.
  apply Qle_bool_iff in H. rewrite H. simpl.
  apply Qle_bool_iff in H.
  do 2 eexists. split; [reflexivity|]. simpl.
  repeat (split; [lra|]). lra.
Qed.

Lemma nonpositive_drive_always_accepted_witness :
  exists self' status,
    add_driving_time (mk 0 0 0 70 9) (-(2)) = Ok (self', status)
    /\ driving_hours_left (mk 0 0 0 70 9) <= driving_hours_left self'.
Proof.
  destruct (@nonpositive_drive_always_accepted (mk 0 0 0 70 9) (-(2)))
    as (self' & status & H & Hd & _).
  - unfold Qle. simpl. lia.
  - exists self', status. split; [exact H | exact Hd].
Defined.

(** X3: a drive that [add_driving_time] accepts never overdraws the
    driving allowance: when [driving_hours_left] is not negative before
    the call, it is not negative after it, and the three allowances go
    down by the same hours. *)
Theorem accepted_drive_keeps_allowance (self self' : t) (hours : Q)
    (status : DrivingStatus) :
  0 <= driving_hours_left self ->
  add_driving_time self hours = Ok (self', status) ->
  0 <= driving_hours_left self'
  /\ driving_hours_left self' = driving_hours_left self - hours
  /\ duty_window_left self' = duty_window_left self - hours
  /\ cycle_hours_left self' = cycle_hours_left self - hours
  /\ ds_break_needed status = Qgeb (time_since_last_break self + hours) 8.
Proof.
  intros H0. unfold add_driving_time.
  destruct (can_drive self hours) eqn:Hc; simpl; [|discriminate].
  intro H. injection H as <- <-. simpl.
  split; [|repeat split].
  revert Hc. unfold can_drive.
  destruct (Qle_bool hours 0) eqn:E0.
  - intros _. apply Qle_bool_iff in E0. lra.
  - destruct (_ || _); [discriminate|].
    destruct (Qgeb _ 8); [discriminate|].
    intro E. apply Qle_bool_iff in E. lra.
Qed.

Lemma accepted_drive_keeps_allowance_witness :
  exists self' status,
    add_driving_time (__init__ 0) 5 = Ok (self', status)
    /\ 0 <= driving_hours_left self'.
Proof.
  exists (mk 0 (11 - 0 - 5) (14 - 0 - 5) (70 - 0 - 5) (0 + 5)),
         (mkDrivingStatus (11 - 0 - 5) (14 - 0 - 5) (70 - 0 - 5) false).
  split; [reflexivity|].
  apply (@accepted_drive_keeps_allowance (__init__ 0) _ 5
           (mkDrivingStatus (11 - 0 - 5) (14 - 0 - 5) (70 - 0 - 5) false)).
  - unfold Qle. simpl. lia.
  - reflexivity.
Defined.

(** X4: no break restores the cycle: [take_break] leaves
    [cycle_hours_left] and [current_hours_used] as they are for every
    length of break, and taking the same break twice is the same as
    taking it once. *)
Theorem break_keeps_cycle (self : t) (hours : Q) :
  cycle_hours_left (take_break self hours) = cycle_hours_left self
  /\ current_hours_used (take_break self hours) = current_hours_used self
  /\ take_break (take_break self hours) hours = take_break self hours.
Proof.
  unfold take_break.
  destruct (Qgeb hours 0.5), (Qgeb hours 10); simpl; auto.
Qed.

End TrackerProofs.

(** ** The tracker's planner *)

Section PlannerProofs.

Import HOSCalculator.

Open Scope Q_scope.

Lemma plan_route_from_step (fuel : nat) (segments : list SegmentDict)
    (self : t) (planned : list Planned) (i : nat) (segment : SegmentDict) :
  nth_error segments i = Some segment ->
  plan_route_from (S fuel) segments self planned i
  = match plan_route_body self planned i segment with
    | Failed e => Some (Failed e)
    | Returned (self', planned', i') =>
        plan_route_from fuel segments self' planned' i'
    end.
Proof. intro H. simpl. rewrite H. reflexivity. Qed.

Lemma plan_route_from_end (fuel : nat) (segments : list SegmentDict)
    (self : t) (planned : list Planned) (i : nat) :
  (List.length segments <= i)%nat ->
  plan_route_from fuel segments self planned i
  = Some (Returned (self, planned)).
Proof.
  intro H. apply nth_error_None in H.
  destruct fuel; simpl; rewrite H; reflexivity.
Qed.

(** The body on a driving leg that cannot be driven yet. *)
Lemma body_waits (self : t) (planned : list Planned) (i : nat)
    (segment : SegmentDict) (miles : Q) (place : string) :
  segment_type segment = Some "driving"%string ->
  distance_miles segment = Some miles ->
  start_location segment = Some place ->
  can_drive self (miles / 60) = false ->
  plan_route_body self planned i segment
  = if Qgeb (time_since_last_break self) 8
       && Qgtb (driving_hours_left self) 0
    then Returned (take_break self 0.5,
                   planned ++ [Inserted "break" 0 0.5 place], i)
    else Returned (take_break self 10,
                   planned ++ [Inserted "rest" 0 10 place], i).
Proof.
  intros Ht Hm Hp Hc. unfold plan_route_body.
  rewrite Ht, Hm, Hp. simpl. rewrite Hc.
  destruct (_ && _); reflexivity.
Qed.

(** The body on a driving leg that can be driven. *)
Lemma body_drives (self : t) (planned : list Planned) (i : nat)
    (segment : SegmentDict) (miles : Q) :
  segment_type segment = Some "driving"%string ->
  distance_miles segment = Some miles ->
  can_drive self (miles / 60) = true ->
  exists self',
    plan_route_body self planned i segment
    = Returned (self', planned ++ [Kept segment], S i).
Proof.
  intros Ht Hm Hc. unfold plan_route_body.
  rewrite Ht, Hm. simpl. rewrite Hc.
  unfold add_driving_time. rewrite Hc. simpl. eauto.
Qed.

(** X5: [plan_route] does not return on a driving leg of more than 11
    hours (660 miles at 60 mph): from a state with at most 11 driving
    hours left the loop inserts breaks and rests for ever and never
    passes the leg, whatever the fuel. *)
Theorem planner_stuck_on_long_leg (segments : list SegmentDict) (i : nat)
    (segment : SegmentDict) (miles : Q) (place : string) :
  nth_error segments i = Some segment ->
  segment_type segment = Some "driving"%string ->
  distance_miles segment = Some miles ->
  start_location segment = Some place ->
  11 < miles / 60 ->
  forall fuel self planned,
    driving_hours_left self <= 11 ->
    plan_route_from fuel segments self planned i = None.
Proof.
  intros Hn Ht Hm Hp Hlong fuel.
  induction fuel as [|fuel IH]; intros self planned Hcap.
  - simpl. rewrite Hn. reflexivity.
  - rewrite (@plan_route_from_step fuel _ self planned _ _ Hn).
    rewrite (@body_waits self planned i _ _ _ Ht Hm Hp
               (@can_drive_false_over_cap self _ Hcap Hlong)).
    destruct (_ && _); apply IH.
    + unfold take_break. simpl. exact Hcap.
    + rewrite rest_caps_driving. lra.
Qed.

Lemma planner_stuck_on_long_leg_witness :
  plan_route 50 (__init__ 0)
    [mkSegmentDict (Some "driving"%string) (Some 700) None
                   (Some "Depot"%string)]
  = None.
Proof.
  unfold plan_route.
  apply (@planner_stuck_on_long_leg _ 0
           (mkSegmentDict (Some "driving"%string) (Some 700) None
                          (Some "Depot"%string)) 700 "Depot").
  - reflexivity.
  - reflexivity.
  - reflexivity.
  - reflexivity.
  - reflexivity.
  - unfold Qle. simpl. lia.
Defined.

(** X6: a driving dict with the two documented keys only
    ([segment_type] and [distance_miles]) makes [plan_route] raise
    [KeyError] for [start_location] as soon as the leg cannot be driven
    at once. *)
Theorem planner_needs_start_location (segments : list SegmentDict)
    (i : nat) (segment : SegmentDict) (miles : Q) (self : t)
    (planned : list Planned) (fuel : nat) :
  nth_error segments i = Some segment ->
  segment_type segment = Some "driving"%string ->
  distance_miles segment = Some miles ->
  start_location segment = None ->
  can_drive self (miles / 60) = false ->
  plan_route_from (S fuel) segments self planned i
  = Some (Failed (KeyError "start_location")).
Proof.
  intros Hn Ht Hm Hp Hc.
  rewrite (@plan_route_from_step fuel _ self planned _ _ Hn).
  unfold plan_route_body. rewrite Ht, Hm, Hp. simpl. rewrite Hc.
  destruct (_ && _); reflexivity.
Qed.

Lemma planner_needs_start_location_witness :
  plan_route 1 (__init__ 8)
    [mkSegmentDict (Some "driving"%string) (Some 300) None None]
  = Some (Failed (KeyError "start_location")).
Proof.
  unfold plan_route.
  apply (@planner_needs_start_location _ 0
           (mkSegmentDict (Some "driving"%string) (Some 300) None None)
           300); reflexivity.
Defined.

Lemma kept_app (l1 l2 : list Planned) : kept (l1 ++ l2) = kept l1 ++ kept l2.
Proof. unfold kept. apply flat_map_app. Qed.

Lemma skipn_nth (A : Type) (l : list A) (i : nat) (a : A) :
  nth_error l i = Some a -> skipn i l = a :: skipn (S i) l.
Proof.
  revert i. induction l as [|b l IH]; intros [|i] H; simpl in *;
    try discriminate.
  - injection H as ->. reflexivity.
  - apply IH. exact H.
Qed.

(** A driving leg of at most 11 hours is passed after at most two
    inserted stops. *)
Lemma driving_leg_settles (segments : list SegmentDict) (i : nat)
    (segment : SegmentDict) (miles : Q) (place : string) :
  nth_error segments i = Some segment ->
  segment_type segment = Some "driving"%string ->
  distance_miles segment = Some miles ->
  start_location segment = Some place ->
  miles / 60 <= 11 ->
  forall self planned,
    exists (k : nat) self' stops,
      (k <= 2)%nat
      /\ kept stops = []
      /\ forall fuel,
           plan_route_from (S (k + fuel)) segments self planned i
           = plan_route_from fuel segments self'
                             ((planned ++ stops) ++ [Kept segment]) (S i).
Proof.
  intros Hn Ht Hm Hp Hshort self planned.
  destruct (can_drive self (miles / 60)) eqn:Hc.
  - destruct (@body_drives self planned i _ _ Ht Hm Hc) as (self' & Hb).
    exists 0%nat, self', []. rewrite app_nil_r.
    split; [lia|]. split; [reflexivity|]. intro fuel.
    rewrite (@plan_route_from_step _ _ self planned _ _ Hn), Hb.
    reflexivity.
  - pose proof (@body_waits self planned i _ _ _ Ht Hm Hp Hc) as Hb.
    destruct (Qgeb (time_since_last_break self) 8
              && Qgtb (driving_hours_left self) 0) eqn:Hbreak.
    + (* a break first *)
      destruct (can_drive (take_break self 0.5) (miles / 60)) eqn:Hc1.
      * destruct (@body_drives (take_break self 0.5)
                    (planned ++ [Inserted "break" 0 0.5 place]) i
                    _ _ Ht Hm Hc1) as (self' & Hb1).
        exists 1%nat, self', [Inserted "break" 0 0.5 place].
        split; [lia|]. split; [reflexivity|]. intro fuel.
        change (S (1 + fuel)) with (S (S fuel)).
        rewrite (@plan_route_from_step (S fuel) _ self planned _ _ Hn), Hb.
        rewrite (@plan_route_from_step fuel _ _ _ _ _ Hn), Hb1.
        reflexivity.
      * pose proof (@body_waits (take_break self 0.5)
                      (planned ++ [Inserted "break" 0 0.5 place]) i
                      _ _ _ Ht Hm Hp Hc1) as Hb1.
        change (Qgeb (time_since_last_break (take_break self 0.5)) 8)
          with false in Hb1.
        simpl (false && _) in Hb1. cbv iota in Hb1.
        destruct (@body_drives (take_break (take_break self 0.5) 10)
                    ((planned ++ [Inserted "break" 0 0.5 place])
                       ++ [Inserted "rest" 0 10 place]) i
                    _ _ Ht Hm (@can_drive_after_rest _ _ Hshort))
          as (self' & Hb2).
        exists 2%nat, self',
          [Inserted "break" 0 0.5 place; Inserted "rest" 0 10 place].
        split; [lia|]. split; [reflexivity|]. intro fuel.
        change (S (2 + fuel)) with (S (S (S fuel))).
        rewrite (@plan_route_from_step (S (S fuel)) _ self planned _ _ Hn),
          Hb.
        rewrite (@plan_route_from_step (S fuel) _ _ _ _ _ Hn), Hb1.
        rewrite (@plan_route_from_step fuel _ _ _ _ _ Hn), Hb2.
        rewrite <- (app_assoc planned). reflexivity.
    + (* a rest first *)
      destruct (@body_drives (take_break self 10)
                  (planned ++ [Inserted "rest" 0 10 place]) i
                  _ _ Ht Hm (@can_drive_after_rest _ _ Hshort))
        as (self' & Hb1).
      exists 1%nat, self', [Inserted "rest" 0 10 place].
      split; [lia|]. split; [reflexivity|]. intro fuel.
      change (S (1 + fuel)) with (S (S fuel)).
      rewrite (@plan_route_from_step (S fuel) _ self planned _ _ Hn), Hb.
      rewrite (@plan_route_from_step fuel _ _ _ _ _ Hn), Hb1.
      reflexivity.
Qed.

Lemma plan_route_from_settles (segments : list SegmentDict) :
  Forall plannable segments ->
  forall n fuel self planned i,
    (List.length segments - i <= n)%nat ->
    (3 * n <= fuel)%nat ->
    exists r,
      plan_route_from fuel segments self planned i = Some r
      /\ settled segments planned i r.
Proof.
  intros Hall n.
  induction n as [|n IH]; intros fuel self planned i Hlen Hfuel.
  - exists (Returned (self, planned)).
    split; [apply plan_route_from_end; lia|].
    simpl. rewrite skipn_all2 by lia. rewrite app_nil_r. reflexivity.
  - destruct (nth_error segments i) as [segment|] eqn:Hn.
    2: { apply nth_error_None in Hn.
         exists (Returned (self, planned)).
         split; [apply plan_route_from_end; lia|].
         simpl. rewrite skipn_all2 by lia. rewrite app_nil_r.
         reflexivity. }
    assert (Hin : plannable segment).
    { rewrite Forall_forall in Hall. apply Hall.
      eapply nth_error_In. exact Hn. }
    assert (Hnext : forall fuel' self' planned',
               (3 * n <= fuel')%nat ->
               kept planned' = kept planned ++ [segment] ->
               exists r,
                 plan_route_from fuel' segments self' planned' (S i)
                 = Some r
                 /\ settled segments planned i r).
    { intros f s p Hf Hk.
      destruct (IH f s p (S i)) as (r & Hr & Hs); [lia | lia |].
      exists r. split; [exact Hr|].
      destruct r as [[s' p']|e]; simpl in *; [|exact Hs].
      rewrite Hs, Hk, <- app_assoc, (skipn_nth _ _ Hn). reflexivity. }
    unfold plannable in Hin.
    destruct (segment_type segment) as [kind|] eqn:Ht; [|contradiction].
    destruct (kind =? "driving")%string eqn:Hk.
    + apply String.eqb_eq in Hk. subst kind.
      destruct Hin as (miles & place & Hm & Hshort & Hp).
      destruct (@driving_leg_settles segments i segment miles place
                  Hn Ht Hm Hp Hshort self planned)
        as (k & self' & stops & Hk & Hstops & Hrun).
      replace fuel with (S (k + (fuel - 1 - k)))%nat by lia.
      rewrite Hrun. apply Hnext; [lia|].
      rewrite !kept_app, Hstops, app_nil_r. reflexivity.
    + destruct Hin as (hours & Hh).
      destruct fuel as [|fuel]; [lia|].
      rewrite (@plan_route_from_step fuel _ self planned _ _ Hn).
      unfold plan_route_body. rewrite Ht, Hk, Hh.
      destruct ((kind =? "rest")%string || (kind =? "break")%string).
      * apply Hnext; [lia|]. rewrite kept_app. reflexivity.
      * unfold add_on_duty_time.
        destruct (Qle_bool (duty_window_left self) 0).
        -- eexists. split; reflexivity.
        -- apply Hnext; [lia|]. rewrite kept_app. reflexivity.
Qed.

End PlannerProofs.

Section PlannerResults.

Import HOSCalculator.

Open Scope Q_scope.

(** X7: when every driving leg lasts at most 11 hours and every dict has
    the keys the planner reads, [plan_route] ends within three iterations
    per segment; it returns the input dicts unchanged and in order, with
    breaks and rests inserted between them only, or it raises the
    [ValueError] of an on-duty stop met after the duty window ran out.
    It raises no [KeyError] and never the [ValueError] of
    [add_driving_time]. *)
Theorem planner_settles_on_short_legs (segments : list SegmentDict)
    (self : t) :
  Forall plannable segments ->
  exists r,
    plan_route (3 * List.length segments) self segments = Some r
    /\ match r with
       | Returned (_, planned) => kept planned = segments
       | Failed e =>
           e = Propagated (ValueError "14-hour duty window expired")
       end.
Proof.
  intro Hall.
  destruct (@plan_route_from_settles segments Hall (List.length segments)
              (3 * List.length segments)%nat self [] 0%nat)
    as (r & Hr & Hs); [lia | lia |].
  exists r. split; [exact Hr|].
  destruct r as [[self' planned]|e]; exact Hs.
Qed.

Lemma planner_settles_on_short_legs_witness :
  exists r,
    plan_route 6 (__init__ 4)
      [mkSegmentDict (Some "driving"%string) (Some 480) None
                     (Some "Depot"%string);
       mkSegmentDict (Some "pickup"%string) None (Some 1) None]
    = Some r
    /\ match r with
       | Returned (_, planned) =>
           kept planned
           = [mkSegmentDict (Some "driving"%string) (Some 480) None
                            (Some "Depot"%string);
              mkSegmentDict (Some "pickup"%string) None (Some 1) None]
       | Failed e =>
           e = Propagated (ValueError "14-hour duty window expired")
       end.
Proof.
  apply (@planner_settles_on_short_legs
           [mkSegmentDict (Some "driving"%string) (Some 480) None
                          (Some "Depot"%string);
            mkSegmentDict (Some "pickup"%string) None (Some 1) None]
           (__init__ 4)).
  repeat constructor.
  - exists 480, "Depot"%string.
    split; [reflexivity|]. split; [|reflexivity].
    unfold Qle. simpl. lia.
  - exists 1. reflexivity.
Defined.

End PlannerResults.

(** ** Routes through the pipeline *)

Section RouteProofs.

Open Scope Q_scope.

Lemma route_end_cons (place : string) (x : Segment) (l : list Segment) :
  route_end place (x :: l) = route_end (end_location x) l.
Proof. reflexivity. Qed.

Lemma route_nil (a : string) : route a [] a.
Proof. split; reflexivity. Qed.

Lemma route_cons (x : Segment) (l : list Segment) (b : string) :
  route (end_location x) l b -> route (start_location x) (x :: l) b.
Proof. intros (Hl & He). split; [split; [reflexivity|exact Hl] | exact He]. Qed.

Lemma route_cons_inv (a b : string) (x : Segment) (l : list Segment) :
  route a (x :: l) b -> start_location x = a /\ route (end_location x) l b.
Proof. intros ((Hs & Hl) & He). split; [exact Hs | split; assumption]. Qed.

Lemma route_app (a m b : string) (l1 l2 : list Segment) :
  route a l1 m -> route m l2 b -> route a (l1 ++ l2) b.
Proof.
  revert a. induction l1 as [|x l1 IH]; intros a H1 H2.
  - destruct H1 as (_ & He). simpl in He. subst m. exact H2.
  - apply route_cons_inv in H1. destruct H1 as (<- & H1).
    simpl. apply route_cons. apply IH; assumption.
Qed.

Lemma route_app_inv (a b : string) (l1 l2 : list Segment) :
  route a (l1 ++ l2) b ->
  route a l1 (route_end a l1) /\ route (route_end a l1) l2 b.
Proof.
  revert a. induction l1 as [|x l1 IH]; intros a H.
  - split; [apply route_nil | exact H].
  - simpl in H. apply route_cons_inv in H. destruct H as (<- & H).
    destruct (IH _ H) as (H1 & H2).
    rewrite route_end_cons. split; [apply route_cons; exact H1 | exact H2].
Qed.

(** A stop made at [place]. *)
Lemma route_stop (kind place : string) (miles hours : Q) :
  route place [mkSegment kind place place miles hours] place.
Proof. split; [split; reflexivity | reflexivity]. Qed.

Lemma fuel_while_route (fuel : nat) :
  forall segment res rem place,
    (fuel_bound rem <= fuel)%nat ->
    exists out rem' place',
      fuel_while fuel segment res rem place = Some (res ++ out, rem', place')
      /\ route place out place'.
Proof.
  induction fuel as [|fuel IH]; intros segment res rem place Hfuel;
    rewrite fuel_while_unfold; destruct (Qgtb rem 1000) eqn:E.
  - apply Qgtb_true in E. rewrite (fuel_bound_step E) in Hfuel. lia.
  - exists [], rem, place. rewrite app_nil_r.
    split; [reflexivity | apply route_nil].
  - apply Qgtb_true in E. rewrite (fuel_bound_step E) in Hfuel.
    cbv zeta.
    set (stop := fuel_stop_name place (end_location segment)).
    destruct (IH segment
                 (res ++ [mkSegment "driving" place stop 1000 (1000 / 60)]
                      ++ [mkSegment "fuel" stop stop 0 0.5])
                 (rem - 1000) stop)
      as (out & rem' & place' & Hrun & Hroute); [lia|].
    exists (mkSegment "driving" place stop 1000 (1000 / 60)
            :: mkSegment "fuel" stop stop 0 0.5 :: out), rem', place'.
    rewrite Hrun, <- !app_assoc. split; [reflexivity|].
    apply (@route_cons (mkSegment "driving" place stop 1000 (1000 / 60))).
    apply (@route_cons (mkSegment "fuel" stop stop 0 0.5)).
    exact Hroute.
  - exists [], rem, place. rewrite app_nil_r.
    split; [reflexivity | apply route_nil].
Qed.

Lemma add_fuel_stops_body_route (res : list Segment) (segment : Segment) :
  exists out,
    add_fuel_stops_body res segment = Some (res ++ out)
    /\ route (start_location segment) out (end_location segment).
Proof.
  unfold add_fuel_stops_body.
  destruct (is_driving segment && Qgtb (distance_miles segment) 1000)
    eqn:Hsplit.
  - apply andb_true_iff in Hsplit. destruct Hsplit as (_ & E).
    apply Qgtb_true in E.
    destruct (@fuel_while_route _ segment res (distance_miles segment)
                (start_location segment) (Nat.le_refl _))
      as (out & rem' & place' & Hrun & Hroute).
    destruct (@fuel_while_spec _ segment res (distance_miles segment)
                (start_location segment) (Nat.le_refl _))
      as (out0 & rem0 & place0 & Hrun0 & _ & Hpos & _).
    rewrite Hrun in Hrun0. injection Hrun0 as _ <- _.
    rewrite Hrun. apply Qgtb_true in Hpos; [|exact E]. rewrite Hpos.
    eexists. rewrite <- app_assoc. split; [reflexivity|].
    apply (route_app Hroute).
    apply (@route_cons (mkSegment "driving" place' (end_location segment)
                                  rem' (rem' / 60))).
    apply route_nil.
  - exists [segment]. split; [reflexivity|].
    apply route_cons. apply route_nil.
Qed.

Lemma add_fuel_stops_for_route (segments : list Segment) :
  forall res a b,
    route a segments b ->
    exists out,
      add_fuel_stops_for segments res = Some (res ++ out)
      /\ route a out b.
Proof.
  induction segments as [|segment segments IH]; intros res a b Hroute.
  - exists []. simpl. rewrite app_nil_r. auto.
  - apply route_cons_inv in Hroute. destruct Hroute as (<- & Hroute).
    destruct (add_fuel_stops_body_route res segment) as (out1 & Hb & H1).
    destruct (IH (res ++ out1) _ _ Hroute) as (out2 & Hfor & H2).
    exists (out1 ++ out2). simpl. rewrite Hb, Hfor, app_assoc.
    split; [reflexivity|]. exact (route_app H1 H2).
Qed.

(** The loop of [apply_hos_regulations] keeps the output followed by the
    queue a route. *)
Lemma hos_body_route (a b : string) s segment queue s' :
  segment_queue s = segment :: queue ->
  route a (result_segments s ++ segment_queue s) b ->
  hos_body s segment queue = Ok s' ->
  route a (result_segments s' ++ segment_queue s') b.
Proof.
  intros Hq Hroute. rewrite Hq in Hroute.
  pose proof (route_app_inv _ _ Hroute) as (Hres & Hrest).
  pose proof (route_cons_inv Hrest) as (Hstart & Htail).
  assert (Hmove : route a ((result_segments s ++ [segment]) ++ queue) b)
    by (rewrite <- app_assoc; exact Hroute).
  assert (Hstop : forall kind miles hours,
             route a ((result_segments s
                       ++ [mkSegment kind (start_location segment)
                                     (start_location segment) miles hours])
                      ++ segment :: queue) b).
  { intros kind miles hours. rewrite Hstart.
    apply (route_app (route_app Hres (route_stop _ _ _ _))).
    rewrite <- Hstart. apply route_cons. exact Htail. }
  assert (Hsplit : forall pm ph rm rh,
             route a ((result_segments s
                       ++ [mkSegment "driving" (start_location segment)
                                     (rest_stop_name segment) pm ph;
                           rest_segment (rest_stop_name segment)])
                      ++ mkSegment "driving" (rest_stop_name segment)
                                   (end_location segment) rm rh
                         :: queue) b).
  { intros pm ph rm rh.
    apply route_app with (m := rest_stop_name segment).
    - apply (route_app Hres). rewrite <- Hstart.
      apply (@route_cons (mkSegment "driving" (start_location segment)
                                    (rest_stop_name segment) pm ph)).
      apply route_stop.
    - apply (@route_cons (mkSegment "driving" (rest_stop_name segment)
                                    (end_location segment) rm rh)).
      exact Htail. }
  unfold hos_body, py_div, bind.
  repeat match goal with
         | |- context [if ?c then _ else _] => destruct c
         end;
    intro H; try discriminate H; injection H as <-;
    cbn [result_segments segment_queue];
    first [exact Hmove | apply Hstop | apply Hsplit].
Qed.

End RouteProofs.

(** ** Totals through the pipeline *)

Section TotalsProofs.

Open Scope Q_scope.

Lemma driving_hours_app (l1 l2 : list Segment) :
  driving_hours (l1 ++ l2) == driving_hours l1 + driving_hours l2.
Proof.
  induction l1 as [|s l1 IH]; simpl.
  - lra.
  - destruct (is_driving s); rewrite IH; lra.
Qed.

(** One iteration moves miles and hours of driving between the queue and
    the output, and neither adds nor loses any. *)
Lemma hos_body_totals s segment queue s' :
  segment_queue s = segment :: queue ->
  hos_body s segment queue = Ok s' ->
  driving_miles (result_segments s' ++ segment_queue s')
  == driving_miles (result_segments s ++ segment_queue s)
  /\ driving_hours (result_segments s' ++ segment_queue s')
     == driving_hours (result_segments s ++ segment_queue s).
Proof.
  intros Hq. rewrite Hq. unfold hos_body, py_div, bind.
  destruct (is_driving segment) eqn:Hd;
    repeat match goal with
           | |- context [if ?c then _ else _] => destruct c
           end;
    intro H; try discriminate H; injection H as <-;
    cbn [result_segments segment_queue];
    rewrite !driving_miles_app, !driving_hours_app; simpl;
    rewrite ?Hd; split; ring.
Qed.

Lemma expansions_miles (segments : list Segment)
    (outs : list (list Segment)) :
  Forall2 leg_expansion segments outs ->
  driving_miles (List.concat outs) == driving_miles segments.
Proof.
  intro H. induction H as [|segment out segments outs Hexp _ IH]; simpl.
  - reflexivity.
  - rewrite driving_miles_app, IH.
    destruct Hexp as (Hsum & _ & Hsame).
    destruct (is_driving segment) eqn:Hd.
    + rewrite (Hsum eq_refl). reflexivity.
    + rewrite (Hsame (or_introl eq_refl)). simpl. rewrite Hd. lra.
Qed.

Lemma expansions_within_tank (segments : list Segment)
    (outs : list (list Segment)) :
  Forall2 leg_expansion segments outs ->
  Forall within_tank (List.concat outs).
Proof.
  intro H. induction H as [|segment out segments outs Hexp _ IH]; simpl.
  - constructor.
  - apply Forall_app. split; [apply Hexp | exact IH].
Qed.

(** A list with no driving segment over 1000 miles is passed as it is. *)
Lemma add_fuel_stops_for_fixed (segments : list Segment) :
  Forall within_tank segments ->
  forall res, add_fuel_stops_for segments res = Some (res ++ segments).
Proof.
  intro H. induction H as [|segment segments Hseg _ IH]; intro res; simpl.
  - rewrite app_nil_r. reflexivity.
  - unfold add_fuel_stops_body.
    assert (Hno : is_driving segment
                  && Qgtb (distance_miles segment) 1000 = false).
    { destruct (is_driving segment) eqn:Hd; [|reflexivity].
      simpl. apply Qgtb_false. apply Hseg. exact Hd. }
    rewrite Hno, IH, <- app_assoc. reflexivity.
Qed.

End TotalsProofs.

(** ** The pipeline: results *)

Section PipelineResults.

Open Scope Q_scope.

(** X8: [add_fuel_stops] keeps a route whole: when the legs lead from
    [a] to [b], each starting where the one before ends, so does the
    output, with every fuel stop made where the leg before it ends. *)
Theorem add_fuel_stops_keeps_route (segments : list Segment)
    (a b : string) :
  route a segments b ->
  exists out, add_fuel_stops segments = Some out /\ route a out b.
Proof.
  intro H. exact (@add_fuel_stops_for_route segments [] a b H).
Qed.

Lemma add_fuel_stops_keeps_route_witness :
  exists out,
    add_fuel_stops [mkSegment "driving" "Depot" "Dock" 2500 (2500 / 60);
                    dock_hour] = Some out
    /\ route "Depot" out "Dock".
Proof.
  apply (@add_fuel_stops_keeps_route
           [mkSegment "driving" "Depot" "Dock" 2500 (2500 / 60); dock_hour]
           "Depot" "Dock").
  repeat split.
Defined.

Lemma hos_route_kept (segments : list Segment)
    (current_hours_used : Q) (a b : string) :
  route a segments b ->
  exists out,
    apply_hos_regulations segments current_hours_used = Some (Ok out)
    /\ route a out b.
Proof.
  intro Hroute.
  destruct (apply_hos_regulations_returns segments current_hours_used)
    as (s' & Hrun & Hq & Happ).
  exists (result_segments s'). split; [exact Happ|].
  assert (H : route a (result_segments s' ++ segment_queue s') b).
  { eapply (@hos_while_invariant
              (fun s => route a (result_segments s ++ segment_queue s) b));
      [| |exact Hrun].
    - intros s segment queue s1 Hs Hqs Hb.
      exact (@hos_body_route a b s segment queue s1 Hqs Hs Hb).
    - exact Hroute. }
  rewrite Hq, app_nil_r in H. exact H.
Qed.

(** X9: [apply_hos_regulations] keeps a route whole: when the legs lead
    from [a] to [b], so does the output; a break or rest is placed where
    the segment before it ends and the segment after it starts. *)
Theorem apply_hos_regulations_keeps_route (segments : list Segment)
    (current_hours_used : Q) (a b : string) :
  route a segments b ->
  exists out,
    apply_hos_regulations segments current_hours_used = Some (Ok out)
    /\ route a out b.
Proof. apply hos_route_kept. Qed.

Lemma apply_hos_regulations_keeps_route_witness :
  exists out,
    apply_hos_regulations [leg_660; leg_60] 0 = Some (Ok out)
    /\ route "Depot" out "Yard".
Proof.
  apply (@apply_hos_regulations_keeps_route [leg_660; leg_60] 0
           "Depot" "Yard").
  repeat split.
Defined.

Lemma hos_driving_conserved (segments : list Segment)
    (current_hours_used : Q) :
  exists out,
    apply_hos_regulations segments current_hours_used = Some (Ok out)
    /\ driving_miles out == driving_miles segments
    /\ driving_hours out == driving_hours segments.
Proof.
  destruct (apply_hos_regulations_returns segments current_hours_used)
    as (s' & Hrun & Hq & Happ).
  exists (result_segments s'). split; [exact Happ|].
  assert (H : driving_miles (result_segments s' ++ segment_queue s')
              == driving_miles segments
              /\ driving_hours (result_segments s' ++ segment_queue s')
                 == driving_hours segments).
  { eapply (@hos_while_invariant
              (fun s =>
                 driving_miles (result_segments s ++ segment_queue s)
                 == driving_miles segments
                 /\ driving_hours (result_segments s ++ segment_queue s)
                    == driving_hours segments));
      [| |exact Hrun].
    - intros s segment queue s1 (Hm & Hh) Hqs Hb.
      destruct (hos_body_totals s Hqs Hb) as (Hm1 & Hh1).
      rewrite Hm1, Hh1. split; assumption.
    - simpl. split; reflexivity. }
  rewrite Hq, app_nil_r in H. exact H.
Qed.

(** X10: [apply_hos_regulations] neither adds nor loses driving: the
    miles and the hours of the driving segments of the output add up to
    those of the input, for every input. *)
Theorem apply_hos_regulations_conserves_driving (segments : list Segment)
    (current_hours_used : Q) :
  exists out,
    apply_hos_regulations segments current_hours_used = Some (Ok out)
    /\ driving_miles out == driving_miles segments
    /\ driving_hours out == driving_hours segments.
Proof. apply hos_driving_conserved. Qed.

(** On doubles as on rationals, a queue of stops is moved to the output
    one stop per iteration. *)
Lemma doubles_stops_moved (queue : list Doubles.Segment) :
  forall s fuel,
    Doubles.segment_queue s = queue ->
    Forall (fun segment => Doubles.is_driving segment = false) queue ->
    (List.length queue <= fuel)%nat ->
    exists s',
      Doubles.hos_while fuel s = Some (Ok s')
      /\ Doubles.result_segments s'
         = (Doubles.result_segments s ++ queue)%list.
Proof.
  induction queue as [|segment queue IH]; intros s fuel Hq Hstops Hfuel.
  - exists s. rewrite app_nil_r. split; [|reflexivity].
    destruct fuel; simpl; rewrite Hq; reflexivity.
  - destruct fuel as [|fuel]; [simpl in Hfuel; lia|].
    pose proof (Forall_inv Hstops) as Hd.
    pose proof (Forall_inv_tail Hstops) as Hstops'.
    assert (Hbody : exists s1,
               Doubles.hos_body s segment queue = Ok s1
               /\ Doubles.segment_queue s1 = queue
               /\ Doubles.result_segments s1
                  = (Doubles.result_segments s ++ [segment])%list).
    { unfold Doubles.hos_body. rewrite Hd.
      repeat match goal with
             | |- context [if ?c then _ else _] => destruct c
             end;
        eexists; (split; [reflexivity|]); split; reflexivity. }
    destruct Hbody as (s1 & Hs1 & Hq1 & Hr1).
    destruct (IH s1 fuel Hq1 Hstops') as (s' & Hrun & Hres).
    { simpl in Hfuel. lia. }
    exists s'. split.
    + simpl. rewrite Hq, Hs1. exact Hrun.
    + rewrite Hres, Hr1, <- app_assoc. reflexivity.
Qed.

(** X11: stops are never touched: a list with no driving segment is
    returned as it is, whatever the durations and the seed; on-duty time
    alone, however long, makes [apply_hos_regulations] insert no rest
    and no break.  This holds of the loop computed on rationals and of
    the loop computed on doubles, which ends within one iteration per
    segment. *)
Theorem stops_pass_unchanged :
  (forall (segments : list Segment) (current_hours_used : Q),
      Forall (fun segment => is_driving segment = false) segments ->
      apply_hos_regulations segments current_hours_used
      = Some (Ok segments))
  /\ (forall (segments : list Doubles.Segment)
             (current_hours_used : float),
         Forall (fun segment => Doubles.is_driving segment = false)
                segments ->
         Doubles.apply_hos_regulations (List.length segments)
                                       segments current_hours_used
         = Some (Ok segments)).
Proof.
  split.
  - intros segments current_hours_used Hstops.
    destruct (apply_hos_regulations_returns segments current_hours_used)
      as (s' & Hrun & Hq & Happ).
    rewrite Happ. do 2 f_equal.
    assert (H : segments = result_segments s' ++ segment_queue s'
                /\ Forall (fun segment => is_driving segment = false)
                          (segment_queue s')).
    { eapply (@hos_while_invariant
                (fun s =>
                   segments = result_segments s ++ segment_queue s
                   /\ Forall (fun segment => is_driving segment = false)
                             (segment_queue s)));
        [| |exact Hrun].
      - intros s segment queue s1 (Hsplit & Hall) Hqs.
        rewrite Hqs in Hsplit, Hall.
        pose proof (Forall_inv Hall) as Hd.
        pose proof (Forall_inv_tail Hall) as Hall'.
        unfold hos_body. rewrite Hd.
        repeat match goal with
               | |- context [if ?c then _ else _] => destruct c
               end;
          intro H; injection H as <-; simpl;
          (split; [rewrite <- app_assoc; exact Hsplit | exact Hall']).
      - split; [reflexivity | exact Hstops]. }
    destruct H as (H & _). rewrite Hq, app_nil_r in H. symmetry. exact H.
  - intros segments current_hours_used Hstops.
    destruct (@doubles_stops_moved segments
                (Doubles.mkHosState segments [] 0 0 current_hours_used 0)
                (List.length segments) eq_refl Hstops (le_n _))
      as (s' & Hrun & Hres).
    unfold Doubles.apply_hos_regulations. rewrite Hrun.
    simpl in Hres. rewrite Hres. reflexivity.
Qed.

Lemma stops_pass_unchanged_witness :
  apply_hos_regulations [loading_10; loading_10; dock_hour] 69
  = Some (Ok [loading_10; loading_10; dock_hour])
  /\ Doubles.apply_hos_regulations
       2 [double_loading_10; double_loading_10] 69
     = Some (Ok [double_loading_10; double_loading_10]).
Proof.
  split.
  - apply (proj1 stops_pass_unchanged
                 [loading_10; loading_10; dock_hour] 69).
    repeat constructor.
  - apply (proj2 stops_pass_unchanged
                 [double_loading_10; double_loading_10] 69%float).
    repeat constructor.
Defined.

(** X12: [add_fuel_stops] does nothing to its own output: applied a
    second time it returns the same list. *)
Theorem add_fuel_stops_idempotent (segments : list Segment) :
  exists out,
    add_fuel_stops segments = Some out
    /\ add_fuel_stops out = Some out.
Proof.
  destruct (add_fuel_stops_for_spec segments []) as (outs & Hrun & Hall).
  exists (List.concat outs). split; [exact Hrun|].
  exact (add_fuel_stops_for_fixed (expansions_within_tank Hall) []).
Qed.

(** On doubles, no test of the loop reads [cycle_hours]. *)
Lemma doubles_body_cycle s1 s2 segment queue :
  doubles_same_but_cycle s1 s2 ->
  doubles_same_outcome (Doubles.hos_body s1 segment queue)
                       (Doubles.hos_body s2 segment queue).
Proof.
  destruct s1 as [q1 r1 hd1 du1 c1 b1], s2 as [q2 r2 hd2 du2 c2 b2].
  unfold doubles_same_but_cycle. simpl.
  intros (-> & -> & -> & -> & ->).
  unfold Doubles.hos_body, Doubles.py_div, bind. simpl.
  repeat match goal with
         | |- context [if ?b then _ else _] => destruct b
         end;
    simpl; unfold doubles_same_but_cycle; simpl; auto 6.
Qed.

Lemma doubles_while_cycle (fuel : nat) :
  forall s1 s2,
    doubles_same_but_cycle s1 s2 ->
    match Doubles.hos_while fuel s1, Doubles.hos_while fuel s2 with
    | Some r1, Some r2 => doubles_same_outcome r1 r2
    | None, None => True
    | _, _ => False
    end.
Proof.
  induction fuel as [|fuel IH]; intros s1 s2 Hs;
    pose proof Hs as (Hq & _); simpl; rewrite <- Hq;
    destruct (Doubles.segment_queue s1) as [|segment queue]; simpl;
    trivial.
  pose proof (doubles_body_cycle segment queue Hs) as Hb.
  destruct (Doubles.hos_body s1 segment queue) as [s1'|e1],
           (Doubles.hos_body s2 segment queue) as [s2'|e2];
    simpl in Hb; try contradiction.
  - apply IH. exact Hb.
  - exact Hb.
Qed.

(** X20: on doubles too the seed decides nothing: for every segment list,
    any two values of [current_hours_used] and any number of iterations,
    the loop of [apply_hos_regulations] computed on doubles has the same
    outcome: the same list returned, the same exception raised, or both
    runs still going. *)
Theorem doubles_cycle_seed_irrelevant (fuel : nat)
    (segments : list Doubles.Segment) (a b : float) :
  Doubles.apply_hos_regulations fuel segments a
  = Doubles.apply_hos_regulations fuel segments b.
Proof.
  unfold Doubles.apply_hos_regulations.
  assert (Hsame : doubles_same_but_cycle
                    (Doubles.mkHosState segments [] 0 0 a 0)
                    (Doubles.mkHosState segments [] 0 0 b 0))
    by (unfold doubles_same_but_cycle; simpl; auto).
  pose proof (doubles_while_cycle fuel Hsame) as H.
  destruct (Doubles.hos_while fuel
              (Doubles.mkHosState segments [] 0 0 a 0)) as [[sa|ea]|],
           (Doubles.hos_while fuel
              (Doubles.mkHosState segments [] 0 0 b 0)) as [[sb|eb]|];
    simpl in H; try contradiction.
  - destruct H as (_ & Hres & _). rewrite Hres. reflexivity.
  - rewrite H. reflexivity.
  - reflexivity.
Qed.

End PipelineResults.

(** ** Fuel stops: how many, and how long the pieces take *)

Section FuelStopCount.

Open Scope Q_scope.

Lemma Qceiling_pred (x : Q) : Qceiling (x - 1) = (Qceiling x - 1)%Z.
Proof.
  unfold Qceiling.
  assert (E : - (x - 1) - 1 == - x) by ring.
  pose proof (Qfloor_pred (- (x - 1))) as H.
  rewrite (Qfloor_comp _ _ E) in H. lia.
Qed.

Lemma stops_needed_step (rem : Q) :
  1000 < rem -> stops_needed rem = S (stops_needed (rem - 1000)).
Proof.
  intro H. unfold stops_needed.
  assert (E : (rem - 1000) / 1000 == rem / 1000 - 1) by (field; lra).
  rewrite (Qceiling_comp _ _ E), Qceiling_pred.
  assert (Hc : (1 < Qceiling (rem / 1000))%Z).
  { rewrite Zlt_Qlt. eapply Qlt_le_trans; [|apply Qle_ceiling].
    change (inject_Z 1) with 1. apply Qlt_shift_div_l; lra. }
  lia.
Qed.

Lemma stops_needed_none (rem : Q) : rem <= 1000 -> stops_needed rem = 0%nat.
Proof.
  intro H. unfold stops_needed.
  assert (Hc : (Qceiling (rem / 1000) <= 1)%Z).
  { change 1%Z with (Qceiling (inject_Z 1)) at 1.
    apply Qceiling_resp_le. change (inject_Z 1) with 1.
    apply Qle_shift_div_r; lra. }
  lia.
Qed.

Lemma fuel_stops_app (l1 l2 : list Segment) :
  fuel_stops (l1 ++ l2) = (fuel_stops l1 + fuel_stops l2)%nat.
Proof. unfold fuel_stops. rewrite filter_app, length_app. reflexivity. Qed.

Lemma fuel_while_count (fuel : nat) :
  forall segment res rem place,
    (fuel_bound rem <= fuel)%nat ->
    exists out rem' place',
      fuel_while fuel segment res rem place = Some (res ++ out, rem', place')
      /\ fuel_stops out = stops_needed rem
      /\ driving_miles out + rem' == rem
      /\ driving_hours out == driving_miles out / 60
      /\ (1000 < rem -> 0 < rem').
Proof.
  induction fuel as [|fuel IH]; intros segment res rem place Hfuel;
    rewrite fuel_while_unfold; destruct (Qgtb rem 1000) eqn:E.
  - apply Qgtb_true in E. rewrite (fuel_bound_step E) in Hfuel. lia.
  - apply Qgtb_false in E. exists [], rem, place. rewrite app_nil_r.
    split; [reflexivity|]. split; [symmetry; apply stops_needed_none, E|].
    simpl. repeat split; try lra; try reflexivity.
  - apply Qgtb_true in E. rewrite (fuel_bound_step E) in Hfuel.
    cbv zeta.
    set (stop := fuel_stop_name place (end_location segment)).
    destruct (IH segment
                 (res ++ [mkSegment "driving" place stop 1000 (1000 / 60)]
                      ++ [mkSegment "fuel" stop stop 0 0.5])
                 (rem - 1000) stop)
      as (out & rem' & place' & Hrun & Hcount & Hsum & Hpace & Hpos);
      [lia|].
    exists (mkSegment "driving" place stop 1000 (1000 / 60)
            :: mkSegment "fuel" stop stop 0 0.5 :: out), rem', place'.
    rewrite Hrun, <- !app_assoc. split; [reflexivity|].
    split; [|split; [|split]].
    + rewrite (stops_needed_step E), <- Hcount. reflexivity.
    + simpl. lra.
    + simpl. rewrite Hpace. field.
    + intros _. destruct (Qlt_le_dec 1000 (rem - 1000)) as [L|L]; [auto|].
      rewrite fuel_while_unfold in Hrun.
      apply Qgtb_false in L. rewrite L in Hrun.
      injection Hrun as _ Hrem _. subst rem'. lra.
  - apply Qgtb_false in E. exists [], rem, place. rewrite app_nil_r.
    split; [reflexivity|]. split; [symmetry; apply stops_needed_none, E|].
    simpl. repeat split; try lra; try reflexivity.
Qed.

(** X13: a driving leg of more than 1000 miles gets one fuel stop short
    of its number of tanks, [ceiling (D / 1000) - 1] (one stop for
    exactly 2000 miles), and its pieces are timed at 60 mph: their hours
    add up to [D / 60], whatever the leg's own estimated time was. *)
Theorem long_leg_fuel_stops (segment : Segment) :
  is_driving segment = true ->
  1000 < distance_miles segment ->
  exists out,
    add_fuel_stops [segment] = Some out
    /\ fuel_stops out = stops_needed (distance_miles segment)
    /\ driving_hours out == distance_miles segment / 60.
Proof.
  intros Hd Hlong.
  unfold add_fuel_stops. simpl. unfold add_fuel_stops_body.
  rewrite Hd. pose proof Hlong as E. apply Qgtb_true in E. rewrite E.
  simpl.
  destruct (@fuel_while_count _ segment [] (distance_miles segment)
              (start_location segment) (Nat.le_refl _))
    as (out & rem' & place' & Hrun & Hcount & Hsum & Hpace & Hpos).
  rewrite Hrun. specialize (Hpos Hlong).
  apply Qgtb_true in Hpos. rewrite Hpos.
  eexists. split; [reflexivity|]. simpl. split.
  - rewrite fuel_stops_app, Hcount.
    match goal with |- context [fuel_stops [?x]] =>
      change (fuel_stops [x]) with 0%nat end.
    lia.
  - rewrite driving_hours_app, Hpace. simpl.
    rewrite <- Hsum. field.
Qed.

Lemma long_leg_fuel_stops_witness :
  exists out,
    add_fuel_stops [mkSegment "driving" "Depot" "Dock" 2000 40] = Some out
    /\ fuel_stops out = 1%nat
    /\ driving_hours out == 2000 / 60.
Proof.
  apply (@long_leg_fuel_stops (mkSegment "driving" "Depot" "Dock" 2000 40));
    reflexivity.
Defined.

End FuelStopCount.

(** ** The planning entry point: what is stored *)

Section PlanRouteResults.

Variable geocode : string -> result (option Location).
Variable distance : Location -> Location -> Q.
Variable str : exn -> string.

Open Scope Q_scope.


Lemma initial_segments_miles (trip : Trip) (d1 d2 : Q) :
  driving_miles (initial_segments trip d1 d2) == d1 + d2.
Proof. simpl. ring. Qed.

(** The run of [plan_route] when the three places are found. *)
Lemma plan_route_planned_as (trip : Trip) (db : Database) (now : Z)
    (current pickup dropoff : Location) :
  geocode (current_location trip) = Ok (Some current) ->
  geocode (pickup_location trip) = Ok (Some pickup) ->
  geocode (dropoff_location trip) = Ok (Some dropoff) ->
  exists fuelled processed,
    add_fuel_stops (initial_segments trip (distance current pickup)
                                     (distance pickup dropoff))
    = Some fuelled
    /\ apply_hos_regulations fuelled (current_hours_used trip)
       = Some (Ok processed)
    /\ plan_route geocode distance str trip db now
       = Some (Response200 "Route planned successfully",
               mkDatabase processed (generate_logs processed now)).
Proof.
  intros Hc Hp Hd.
  destruct (add_fuel_stops_preserves_fuel
              (initial_segments trip (distance current pickup)
                                (distance pickup dropoff)))
    as (fuelled & Hfuel).
  destruct (apply_hos_regulations_returns fuelled
              (current_hours_used trip)) as (s' & _ & _ & Hhos).
  exists fuelled, (result_segments s').
  split; [exact Hfuel|]. split; [exact Hhos|].
  unfold plan_route, plan_route_try.
  rewrite Hc, Hp, Hd, Hfuel, Hhos. reflexivity.
Qed.


(** X15: when the three places are found, the driving segments
    [plan_route] stores cover the two geocoded distances: their miles
    add up to the distance from the current location to the pickup plus
    the distance from the pickup to the dropoff. *)
Theorem plan_route_stores_all_miles (trip : Trip) (db : Database)
    (now : Z) (current pickup dropoff : Location) :
  geocode (current_location trip) = Ok (Some current) ->
  geocode (pickup_location trip) = Ok (Some pickup) ->
  geocode (dropoff_location trip) = Ok (Some dropoff) ->
  exists db',
    plan_route geocode distance str trip db now
    = Some (Response200 "Route planned successfully", db')
    /\ driving_miles (route_segments db')
       == distance current pickup + distance pickup dropoff.
Proof.
  intros Hc Hp Hd.
  destruct (plan_route_planned_as trip db now Hc Hp Hd)
    as (fuelled & processed & Hfuel & Hhos & Hplan).
  eexists. split; [exact Hplan|]. simpl.
  destruct (add_fuel_stops_for_spec
              (initial_segments trip (distance current pickup)
                                (distance pickup dropoff)) [])
    as (outs & Hout & Hall).
  unfold add_fuel_stops in Hfuel. rewrite Hfuel in Hout.
  injection Hout as ->.
  destruct (hos_driving_conserved (List.concat outs)
              (current_hours_used trip))
    as (out' & Hout' & Hmiles & _).
  rewrite Hhos in Hout'. injection Hout' as <-.
  rewrite Hmiles, (expansions_miles Hall).
  apply initial_segments_miles.
Qed.

End PlanRouteResults.

Section PlanRouteResultCases.

Open Scope Q_scope.


Lemma plan_route_stores_all_miles_witness :
  exists db',
    plan_route found_everywhere miles_120 exn_name
               (mkTrip "Depot" "Dock" "Yard" 30) (mkDatabase [] []) 0
    = Some (Response200 "Route planned successfully", db')
    /\ driving_miles (route_segments db') == 120 + 120.
Proof.
  apply (@plan_route_stores_all_miles found_everywhere miles_120 exn_name
           (mkTrip "Depot" "Dock" "Yard" 30) (mkDatabase [] []) 0%Z
           (mkLocation 0 0) (mkLocation 0 0) (mkLocation 0 0));
    reflexivity.
Defined.

End PlanRouteResultCases.

(** ** The log partitioner: entries and their labels *)

Section LogEntriesProofs.

Open Scope Z_scope.

Lemma segment_type_to_status_unfold (kind : string) :
  segment_type_to_status kind
  = (if "driving" =? kind then "driving"
     else if "rest" =? kind then "off_duty"
     else if "pickup" =? kind then "on_duty_not_driving"
     else if "dropoff" =? kind then "on_duty_not_driving"
     else if "fuel" =? kind then "on_duty_not_driving"
     else if "break" =? kind then "off_duty"
     else "on_duty_not_driving")%string.
Proof. reflexivity. Qed.

Lemma status_emitted (kind : string) :
  emitted_status (segment_type_to_status kind).
Proof.
  rewrite segment_type_to_status_unfold. unfold emitted_status.
  repeat match goal with
         | |- context [if ?c then _ else _] => destruct c
         end; auto.
Qed.

(** X16: [segment_type_to_status] gives "driving" for driving segments
    only, "off_duty" for rests and breaks only, and
    "on_duty_not_driving" for every other kind, known or not; it gives no
    other status. *)
Theorem status_by_kind (kind : string) :
  emitted_status (segment_type_to_status kind)
  /\ (segment_type_to_status kind = "driving"%string
      <-> kind = "driving"%string)
  /\ (segment_type_to_status kind = "off_duty"%string
      <-> kind = "rest"%string \/ kind = "break"%string).
Proof.
  split; [apply status_emitted|].
  rewrite segment_type_to_status_unfold.
  repeat match goal with
         | |- context [if (?a =? kind)%string then _ else _] =>
             destruct (String.eqb_spec a kind);
             [try subst kind|]
         end;
    split; split; intro H;
    first [ congruence
          | destruct H; congruence
          | left; reflexivity
          | right; reflexivity ].
Qed.

Lemma full_days_length (n : nat) :
  forall cd st loc, List.length (full_days n cd st loc) = n.
Proof.
  induction n as [|n IH]; intros cd st loc; simpl; [|rewrite IH];
    reflexivity.
Qed.

Lemma full_days_labels (n : nat) :
  forall cd st loc,
    Forall (fun r => status r = st /\ location r = loc)
           (full_days n cd st loc).
Proof.
  induction n as [|n IH]; intros cd st loc; simpl; constructor.
  - split; reflexivity.
  - apply IH.
Qed.

Lemma segment_logs_labels (segment : Segment) (s : Z) :
  Forall (fun r => status r = segment_type_to_status (type segment)
                   /\ location r = start_location segment)
         (fst (segment_logs segment s)).
Proof.
  unfold segment_logs. destruct (_ =? _); simpl.
  - constructor; [split; reflexivity | constructor].
  - constructor; [split; reflexivity|].
    apply Forall_app. split; [apply full_days_labels|].
    constructor; [split; reflexivity | constructor].
Qed.

Lemma segment_logs_count (segment : Segment) (s : Z) :
  0 <= timedelta_hours (estimated_drive_time segment) ->
  Z.of_nat (List.length (fst (segment_logs segment s)))
  = 1 + (date_of (s + timedelta_hours (estimated_drive_time segment))
         - date_of s).
Proof.
  intro Htd.
  set (e := s + timedelta_hours (estimated_drive_time segment)).
  assert (Hse : s <= e) by (unfold e; lia).
  pose proof (date_of_mono Hse) as Hmono.
  destruct (Z.eq_dec (date_of s) (date_of e)) as [Heq|Hne].
  - rewrite (segment_logs_same_date segment s Heq).
    cbn [fst List.length]. lia.
  - rewrite (segment_logs_crossing segment s Hne). fold e.
    cbn [fst]. rewrite length_app. cbn [List.length].
    rewrite full_days_length. lia.
Qed.

(** X17: every log entry [generate_logs] writes belongs to a segment: it
    carries the status of that segment's kind and the segment's start
    location, also on the later days of a segment that crosses
    midnights; its status is one of "driving", "off_duty" and
    "on_duty_not_driving". *)
Theorem log_entries_carry_their_segment (segments : list Segment)
    (now : Z) :
  Forall (fun r =>
            emitted_status (status r)
            /\ exists segment,
                 In segment segments
                 /\ status r = segment_type_to_status (type segment)
                 /\ location r = start_location segment)
         (generate_logs segments now).
Proof.
  unfold generate_logs. generalize (truncate_to_hour now) as s.
  induction segments as [|segment segments IH]; intro s.
  - constructor.
  - rewrite generate_logs_from_cons. apply Forall_app. split.
    + eapply Forall_impl; [|apply segment_logs_labels].
      intros r (Hs & Hl). split.
      * rewrite Hs. apply status_emitted.
      * exists segment. split; [left; reflexivity | auto].
    + eapply Forall_impl; [|apply IH].
      intros r (He & segment' & Hin & Hs & Hl). split; [exact He|].
      exists segment'. split; [right; exact Hin | auto].
Qed.

(** X18: for segments of non-negative duration [generate_logs] writes one
    entry per segment and one more for every midnight between the
    truncated start and the end of the trip. *)
Theorem log_entries_count (segments : list Segment) (now : Z) :
  Forall nonneg_duration segments ->
  Z.of_nat (List.length (generate_logs segments now))
  = Z.of_nat (List.length segments)
    + (date_of (truncate_to_hour now + total_timedelta segments)
       - date_of (truncate_to_hour now)).
Proof.
  unfold generate_logs. generalize (truncate_to_hour now) as s.
  induction segments as [|segment segments IH]; intros s Hnn.
  - simpl. rewrite Z.add_0_r. lia.
  - rewrite generate_logs_from_cons, length_app, Nat2Z.inj_add.
    rewrite (segment_logs_count segment s
               (timedelta_hours_nonneg (Forall_inv Hnn))).
    rewrite (IH _ (Forall_inv_tail Hnn)).
    cbn [List.length total_timedelta fold_right].
    fold (total_timedelta segments).
    rewrite (Z.add_assoc s). lia.
Qed.

Lemma log_entries_count_witness :
  Z.of_nat (List.length (generate_logs [four_hour_rest; dock_hour] ten_pm))
  = 2 + 1.
Proof.
  apply (@log_entries_count [four_hour_rest; dock_hour] ten_pm).
  repeat constructor; unfold nonneg_duration, Qle; simpl; lia.
Defined.

(** X19: the entries of a trip are those of its first part followed by
    those of the rest, started where the first part ends. *)
Theorem generate_logs_from_app (first rest : list Segment) (s : Z) :
  generate_logs_from (first ++ rest) s
  = (generate_logs_from first s
     ++ generate_logs_from rest (s + total_timedelta first))%list.
Proof.
  revert s. induction first as [|segment first IH]; intro s.
  - simpl. rewrite Z.add_0_r. reflexivity.
  - rewrite <- app_comm_cons, !generate_logs_from_cons, IH, <- app_assoc.
    cbn [total_timedelta fold_right]. fold (total_timedelta first).
    rewrite (Z.add_assoc s). reflexivity.
Qed.

End LogEntriesProofs.
